(** * internal/data/common.go: handles over OTLP wire records

    A shallow embedding of the Go package [data] (file
    [internal/data/common.go]) and the properties of its aliasing handles
    ([AttributeValue], [StringKeyValue], [StringMap],
    [InstrumentationLibrary]).

    Go pointers are modelled as optional addresses into a typed store, Go
    panics (nil dereference, index out of range, negative [make] length) as
    the [Panic] outcome of a state-and-panic monad. *)

From Stdlib Require Import ZArith PrimFloat Lia Permutation Sorted.
From stdpp Require Import base option relations list strings gmap.

Open Scope Z_scope.

(** ** Go runtime: pointers, panics, state *)

(** A pointer is [nil] or the address of a cell of the store of its type. *)
Definition ptr := option nat.
Definition nil : ptr := None.

Inductive result (St A : Type) : Type :=
| Ok (a : A) (s : St)
| Panic.
Arguments Ok {St A} a s.
Arguments Panic {St A}.

Definition M (St A : Type) : Type := St -> result St A.

Definition ret {St A} (a : A) : M St A := fun s => Ok a s.

Definition bind {St A B} (m : M St A) (f : A -> M St B) : M St B :=
  fun s => match m s with
           | Ok a s' => f a s'
           | Panic => Panic
           end.

Definition panic {St A} : M St A := fun _ => Panic.

Notation "x <- m ;; k" := (bind m (fun x => k))
  (at level 100, m at next level, right associativity).
Notation "m ;;; k" := (bind m (fun _ => k))
  (at level 100, right associativity).

(** The value a computation returns, when it does not panic. *)
Definition eval {St A} (m : M St A) (s : St) : option A :=
  match m s with
  | Ok a _ => Some a
  | Panic => None
  end.

(** ** The wire records of package otlpcommon

    The records are declared by the protocol package, which is not part of
    this repository; they are modelled from the description of the wire
    schema.  The numeric values of the [ValueType] enumeration are taken as
    parameters. *)
Module otlpcommon.

(** [AttributeKeyValue_ValueType] is an [int32] enumeration. *)
Definition AttributeKeyValue_ValueType := Z.

(** The four constants of the enumeration the package refers to. *)
Class ValueTypes := {
  AttributeKeyValue_STRING : AttributeKeyValue_ValueType;
  AttributeKeyValue_INT : AttributeKeyValue_ValueType;
  AttributeKeyValue_DOUBLE : AttributeKeyValue_ValueType;
  AttributeKeyValue_BOOL : AttributeKeyValue_ValueType
}.

(** Modelled from the spec: the value record of the wire schema, "a value
    record with fields {discriminant, stringPayload, intPayload,
    doublePayload, boolPayload}"; the fields have the names and types the
    package reads and writes them with ([Type], [StringValue] of type
    [string], [IntValue] of type [int64], [DoubleValue] of type [float64],
    [BoolValue] of type [bool]).  An [int64] is carried as it is: the
    package does no arithmetic. *)
Record AttributeKeyValue := {
  Type_ : AttributeKeyValue_ValueType;
  StringValue : string;
  IntValue : Z;
  DoubleValue : float;
  BoolValue : bool
}.

(** The Go zero value, as [make] fills a fresh array with. *)
Definition AttributeKeyValue_zero : AttributeKeyValue :=
  {| Type_ := 0; StringValue := ""; IntValue := 0;
     DoubleValue := 0%float; BoolValue := false |}.

(** Modelled from the spec: the key-value record of the wire schema, "a
    key-value record with fields {key, value}", both strings. *)
Record StringKeyValue := { Key : string; Value : string }.

(** Modelled from the spec: the record behind the instrumentation
    descriptor, a name and a version, both strings. *)
Record InstrumentationLibrary := { Name : string; Version : string }.

(** An assignment of the four constants, to run the functions on
    examples. *)
Definition proto_ValueTypes : ValueTypes :=
  {| AttributeKeyValue_STRING := 0; AttributeKeyValue_INT := 1;
     AttributeKeyValue_DOUBLE := 2; AttributeKeyValue_BOOL := 3 |}.

End otlpcommon.

(** ** AttributeValue *)
Module AttributeValue.
Import otlpcommon.

(** The store of [otlpcommon.AttributeKeyValue] records: the address of a
    record is its position; a backing array is a run of consecutive
    addresses. *)
Abbreviation heap := (list AttributeKeyValue).

(** [type AttributeValue struct { orig *otlpcommon.AttributeKeyValue }] *)
Record t := mk { orig : ptr }.

(** A Go value copy of the struct copies the pointer. *)
Definition copy (a : t) : t := {| orig := orig a |}.

(** [&otlpcommon.AttributeKeyValue{...}]: a fresh record. *)
Definition alloc (r : AttributeKeyValue) : M heap ptr :=
  fun h => Ok (Some (length h)) (h ++ [r]).

(** [make([]otlpcommon.AttributeKeyValue, n)]: [n] zero records at
    consecutive addresses; returns the address of the first. *)
Definition alloc_array (n : nat) : M heap nat :=
  fun h => Ok (length h) (h ++ replicate n AttributeKeyValue_zero).

(** Reading through [a.orig]: a nil pointer panics.  An address outside
    the store cannot arise in Go; it is made a panic as well. *)
Definition load (p : ptr) : M heap AttributeKeyValue :=
  fun h => match p with
           | None => Panic
           | Some i => match h !! i with
                       | Some r => Ok r h
                       | None => Panic
                       end
           end.

(** Assigning one field through [a.orig]. *)
Definition store (p : ptr) (f : AttributeKeyValue -> AttributeKeyValue)
  : M heap unit :=
  fun h => match p with
           | None => Panic
           | Some i => match h !! i with
                       | Some r => Ok tt (<[i := f r]> h)
                       | None => Panic
                       end
           end.

Definition set_Type (x : AttributeKeyValue_ValueType) (r : AttributeKeyValue) :=
  {| Type_ := x; StringValue := StringValue r; IntValue := IntValue r;
     DoubleValue := DoubleValue r; BoolValue := BoolValue r |}.
Definition set_StringValue (x : string) (r : AttributeKeyValue) :=
  {| Type_ := Type_ r; StringValue := x; IntValue := IntValue r;
     DoubleValue := DoubleValue r; BoolValue := BoolValue r |}.
Definition set_IntValue (x : Z) (r : AttributeKeyValue) :=
  {| Type_ := Type_ r; StringValue := StringValue r; IntValue := x;
     DoubleValue := DoubleValue r; BoolValue := BoolValue r |}.
Definition set_DoubleValue (x : float) (r : AttributeKeyValue) :=
  {| Type_ := Type_ r; StringValue := StringValue r; IntValue := IntValue r;
     DoubleValue := x; BoolValue := BoolValue r |}.
Definition set_BoolValue (x : bool) (r : AttributeKeyValue) :=
  {| Type_ := Type_ r; StringValue := StringValue r; IntValue := IntValue r;
     DoubleValue := DoubleValue r; BoolValue := x |}.

Section WithValueTypes.
Context `{VT : ValueTypes}.

(** [AttributeValueType] and its four constants. *)
Definition AttributeValueType := Z.
Definition AttributeValueSTRING : AttributeValueType := AttributeKeyValue_STRING.
Definition AttributeValueINT : AttributeValueType := AttributeKeyValue_INT.
Definition AttributeValueDOUBLE : AttributeValueType := AttributeKeyValue_DOUBLE.
Definition AttributeValueBOOL : AttributeValueType := AttributeKeyValue_BOOL.

(** [AttributeValue{orig: &otlpcommon.AttributeKeyValue{Type: ..., StringValue: v}}]:
    the fields not named in the literal keep their zero value. *)
Definition NewAttributeValueString (v : string) : M heap t :=
  p <- alloc (set_StringValue v (set_Type AttributeKeyValue_STRING AttributeKeyValue_zero)) ;;
  ret {| orig := p |}.

Definition NewAttributeValueInt (v : Z) : M heap t :=
  p <- alloc (set_IntValue v (set_Type AttributeKeyValue_INT AttributeKeyValue_zero)) ;;
  ret {| orig := p |}.

Definition NewAttributeValueDouble (v : float) : M heap t :=
  p <- alloc (set_DoubleValue v (set_Type AttributeKeyValue_DOUBLE AttributeKeyValue_zero)) ;;
  ret {| orig := p |}.

Definition NewAttributeValueBool (v : bool) : M heap t :=
  p <- alloc (set_BoolValue v (set_Type AttributeKeyValue_BOOL AttributeKeyValue_zero)) ;;
  ret {| orig := p |}.

(** [for i := range origs { wrappers[i].orig = &origs[i] }], with
    [origs] at addresses [base], [base+1], ...; [ixs] are the indices
    still to visit. *)
Fixpoint NewAttributeValueSlice_loop (base : nat) (ixs : list nat)
    (wrappers : list t) : list t :=
  match ixs with
  | [] => wrappers
  | i :: ixs' =>
      NewAttributeValueSlice_loop base ixs'
        (<[i := {| orig := Some (base + i)%nat |}]> wrappers)
  end.

(** [make] with a negative length panics. *)
Definition NewAttributeValueSlice (len : Z) : M heap (list t) :=
  if len <? 0 then panic
  else
    let n := Z.to_nat len in
    origs <- alloc_array n ;;
    let wrappers := replicate n {| orig := nil |} in
    ret (NewAttributeValueSlice_loop origs (seq 0 n) wrappers).

Definition Type' (a : t) : M heap AttributeValueType :=
  r <- load (orig a) ;; ret (Type_ r).

Definition StringVal (a : t) : M heap string :=
  r <- load (orig a) ;; ret (StringValue r).

Definition IntVal (a : t) : M heap Z :=
  r <- load (orig a) ;; ret (IntValue r).

Definition DoubleVal (a : t) : M heap float :=
  r <- load (orig a) ;; ret (DoubleValue r).

Definition BoolVal (a : t) : M heap bool :=
  r <- load (orig a) ;; ret (BoolValue r).

Definition SetString (a : t) (v : string) : M heap unit :=
  store (orig a) (set_Type AttributeKeyValue_STRING) ;;;
  store (orig a) (set_StringValue v).

Definition SetInt (a : t) (v : Z) : M heap unit :=
  store (orig a) (set_Type AttributeKeyValue_INT) ;;;
  store (orig a) (set_IntValue v).

Definition SetDouble (a : t) (v : float) : M heap unit :=
  store (orig a) (set_Type AttributeKeyValue_DOUBLE) ;;;
  store (orig a) (set_DoubleValue v).

Definition SetBool (a : t) (v : bool) : M heap unit :=
  store (orig a) (set_Type AttributeKeyValue_BOOL) ;;;
  store (orig a) (set_BoolValue v).

(** [constructed h a h']: a constructor run in the store [h] returns
    the handle [a] (for [NewAttributeValueSlice], as one of the handles
    of the slice) and leaves the store [h']. *)
Inductive constructed (h : heap) (a : t) (h' : heap) : Prop :=
| constructed_String (v : string) :
    NewAttributeValueString v h = Ok a h' -> constructed h a h'
| constructed_Int (v : Z) :
    NewAttributeValueInt v h = Ok a h' -> constructed h a h'
| constructed_Double (v : float) :
    NewAttributeValueDouble v h = Ok a h' -> constructed h a h'
| constructed_Bool (v : bool) :
    NewAttributeValueBool v h = Ok a h' -> constructed h a h'
| constructed_Slice (len : Z) (ws : list t) (i : nat) :
    NewAttributeValueSlice len h = Ok ws h' -> ws !! i = Some a ->
    constructed h a h'.

(** What the five readers return on a handle: the discriminant and
    every payload, [None] for a reader that panics. *)
Definition observe (a : t) (h : heap)
  : option AttributeValueType * option string * option Z
    * option float * option bool :=
  (eval (Type' a) h, eval (StringVal a) h, eval (IntVal a) h,
   eval (DoubleVal a) h, eval (BoolVal a) h).

End WithValueTypes.
End AttributeValue.

(** ** StringKeyValue and StringMap *)

(** The store behind [StringKeyValue] and [StringMap]: the
    [otlpcommon.StringKeyValue] records, and the slice variables of type
    [[]*otlpcommon.StringKeyValue] a [StringMap] points to.  A slice
    variable holds the elements visible through it, in order. *)
Module KV.
Import otlpcommon.

Record heap := {
  recs : list StringKeyValue;
  slices : list (list ptr)
}.

Definition empty : heap := {| recs := []; slices := [] |}.

Definition set_Key (x : string) (r : StringKeyValue) : StringKeyValue :=
  {| Key := x; Value := Value r |}.
Definition set_Value (x : string) (r : StringKeyValue) : StringKeyValue :=
  {| Key := Key r; Value := x |}.

Definition StringKeyValue_zero : StringKeyValue := {| Key := ""; Value := "" |}.

(** The record a pointer designates, if any. *)
Definition rec_at (h : heap) (p : ptr) : option StringKeyValue :=
  match p with
  | None => None
  | Some i => recs h !! i
  end.

Definition load_rec (p : ptr) : M heap StringKeyValue :=
  fun h => match rec_at h p with
           | Some r => Ok r h
           | None => Panic
           end.

Definition store_rec (p : ptr) (f : StringKeyValue -> StringKeyValue)
  : M heap unit :=
  fun h => match p with
           | None => Panic
           | Some i =>
               match recs h !! i with
               | Some r => Ok tt {| recs := <[i := f r]> (recs h); slices := slices h |}
               | None => Panic
               end
           end.

Definition alloc_rec (r : StringKeyValue) : M heap ptr :=
  fun h => Ok (Some (length (recs h)))
              {| recs := recs h ++ [r]; slices := slices h |}.

(** [make([]otlpcommon.StringKeyValue, n)] *)
Definition alloc_recs (n : nat) : M heap nat :=
  fun h => Ok (length (recs h))
              {| recs := recs h ++ replicate n StringKeyValue_zero;
                 slices := slices h |}.

(** [*p] for [p *[]*otlpcommon.StringKeyValue] *)
Definition load_slice (p : ptr) : M heap (list ptr) :=
  fun h => match p with
           | None => Panic
           | Some c => match slices h !! c with
                       | Some s => Ok s h
                       | None => Panic
                       end
           end.

(** [*p = s] *)
Definition store_slice (p : ptr) (s : list ptr) : M heap unit :=
  fun h => match p with
           | None => Panic
           | Some c => match slices h !! c with
                       | Some _ => Ok tt {| recs := recs h; slices := <[c := s]> (slices h) |}
                       | None => Panic
                       end
           end.

(** [&s] for a local slice variable [s] that escapes. *)
Definition alloc_slice (s : list ptr) : M heap ptr :=
  fun h => Ok (Some (length (slices h)))
              {| recs := recs h; slices := slices h ++ [s] |}.

(** [s[i]]: an index out of range panics. *)
Definition index (s : list ptr) (i : nat) : M heap ptr :=
  fun h => match s !! i with
           | Some x => Ok x h
           | None => Panic
           end.
End KV.

Module StringKeyValue.
Import otlpcommon KV.

(** [type StringKeyValue struct { orig *otlpcommon.StringKeyValue }] *)
Record t := mk { orig : ptr }.

Definition NewStringKeyValue (k v : string) : M heap t :=
  p <- alloc_rec {| otlpcommon.Key := k; otlpcommon.Value := v |} ;;
  ret {| orig := p |}.

Definition Key (akv : t) : M heap string :=
  r <- load_rec (orig akv) ;; ret (otlpcommon.Key r).

Definition Value (akv : t) : M heap string :=
  r <- load_rec (orig akv) ;; ret (otlpcommon.Value r).

Definition SetValue (akv : t) (v : string) : M heap unit :=
  store_rec (orig akv) (set_Value v).
End StringKeyValue.

(** Go's [sort.SliceStable], by its contract: the slice is sorted by
    [less] and elements that are not ordered by [less] keep their original
    order.  Every stable sort computes the same list; this is insertion
    sort, inserting an element behind the strictly smaller ones only. *)
Fixpoint SliceStable_insert {A} (less : A -> A -> bool) (x : A) (l : list A)
    : list A :=
  match l with
  | [] => [x]
  | y :: l' => if less y x then y :: SliceStable_insert less x l' else x :: l
  end.

Fixpoint SliceStable {A} (less : A -> A -> bool) (l : list A) : list A :=
  match l with
  | [] => []
  | x :: l' => SliceStable_insert less x (SliceStable less l')
  end.

(** The comparison [Sort] passes to [sort.SliceStable]: the keys of the
    elements compared with [<] on strings (bytewise lexicographic). *)
Definition less_key {A} (key : A -> string) (x y : A) : bool :=
  String.ltb (key x) (key y).

(** A list in ascending order of the keys of its elements. *)
Definition ascending {A} (key : A -> string) (l : list A) : Prop :=
  StronglySorted (fun x y => String.leb (key x) (key y) = true) l.

Module StringMap.
Import otlpcommon KV.

(** [type StringMap struct { orig *[]*otlpcommon.StringKeyValue }] *)
Record t := mk { orig : ptr }.

Definition newStringMap (orig : ptr) : t := {| orig := orig |}.

(** The body of [for k, v := range attrMap], run on the entries in the
    order [range] yields them; [origs] is the address of [origs[0]]. *)
Fixpoint NewStringMap_loop (origs : nat) (kvs : list (string * string))
    (ix : nat) (wrappers : list ptr) : M heap (list ptr) :=
  match kvs with
  | [] => ret wrappers
  | (k, v) :: kvs' =>
      if decide (ix < length wrappers)%nat then
        let wrappers := <[ix := Some (origs + ix)%nat]> wrappers in
        a <- index wrappers ix ;;
        store_rec a (set_Key k) ;;;
        a <- index wrappers ix ;;
        store_rec a (set_Value v) ;;;
        NewStringMap_loop origs kvs' (S ix) wrappers
      else panic
  end.

(** [NewStringMap(attrMap)].  Go leaves the iteration order of a map
    unspecified: [order] is the sequence in which [range] yields the
    entries of [attrMap], some permutation of them ([range_order]). *)
Definition range_order (attrMap : gmap string string)
    (order : list (string * string)) : Prop :=
  order ≡ₚ map_to_list attrMap.

Definition NewStringMap (attrMap : gmap string string)
    (order : list (string * string)) : M heap t :=
  if decide (size attrMap = 0)%nat then
    p <- alloc_slice [] ;;
    ret {| orig := p |}
  else
    origs <- alloc_recs (size attrMap) ;;
    let wrappers := replicate (size attrMap) nil in
    wrappers <- NewStringMap_loop origs order 0 wrappers ;;
    p <- alloc_slice wrappers ;;
    ret {| orig := p |}.

(** [for _, a := range s { if a.Key == k { return StringKeyValue{a}, true } }] *)
Fixpoint Get_loop (s : list ptr) (k : string)
    : M heap (StringKeyValue.t * bool) :=
  match s with
  | [] => ret ({| StringKeyValue.orig := nil |}, false)
  | a :: s' =>
      r <- load_rec a ;;
      if String.eqb (Key r) k then ret ({| StringKeyValue.orig := a |}, true)
      else Get_loop s' k
  end.

Definition Get (sm : t) (k : string) : M heap (StringKeyValue.t * bool) :=
  s <- load_slice (orig sm) ;;
  Get_loop s k.

(** The two assignments [Delete] makes at a matching index [i], for
    [s := *sm.orig]: [s[i] = s[len(s)-1]] and [*sm.orig = s[:len(s)-1]]. *)
Definition Delete_at (sm : t) (i : nat) : M heap unit :=
  s <- load_slice (orig sm) ;;
  x <- index s (length s - 1) ;;
  (if decide (i < length s)%nat then store_slice (orig sm) (<[i := x]> s)
   else panic) ;;;
  s <- load_slice (orig sm) ;;
  store_slice (orig sm) (take (length s - 1) s).

(** The loop of [Delete] at index [i], with [rest] the elements of the
    ranged-over slice from [i] on. *)
Fixpoint Delete_loop (sm : t) (i : nat) (rest : list ptr) (k : string)
    : M heap bool :=
  match rest with
  | [] => ret false
  | a :: rest' =>
      r <- load_rec a ;;
      if String.eqb (Key r) k then
        Delete_at sm i ;;;
        ret true
      else Delete_loop sm (S i) rest' k
  end.

Definition Delete (sm : t) (k : string) : M heap bool :=
  s <- load_slice (orig sm) ;;
  Delete_loop sm 0 s k.

Definition Insert (sm : t) (k v : string) : M heap unit :=
  r <- Get sm k ;;
  if negb (snd r) then
    kv <- StringKeyValue.NewStringKeyValue k v ;;
    s <- load_slice (orig sm) ;;
    store_slice (orig sm) (s ++ [StringKeyValue.orig kv])
  else ret tt.

Definition Update (sm : t) (k v : string) : M heap unit :=
  r <- Get sm k ;;
  if snd r then StringKeyValue.SetValue (fst r) v
  else ret tt.

Definition Upsert (sm : t) (k v : string) : M heap unit :=
  r <- Get sm k ;;
  if snd r then StringKeyValue.SetValue (fst r) v
  else
    kv <- StringKeyValue.NewStringKeyValue k v ;;
    s <- load_slice (orig sm) ;;
    store_slice (orig sm) (s ++ [StringKeyValue.orig kv]).

Definition Len (sm : t) : M heap Z :=
  s <- load_slice (orig sm) ;; ret (Z.of_nat (length s)).

Definition GetStringKeyValue (sm : t) (ix : Z) : M heap StringKeyValue.t :=
  s <- load_slice (orig sm) ;;
  if ix <? 0 then panic
  else
    a <- index s (Z.to_nat ix) ;;
    ret {| StringKeyValue.orig := a |}.

(** The key [less] reads through an element of the slice. *)
Definition key_at (h : heap) (p : ptr) : string :=
  match rec_at h p with
  | Some r => Key r
  | None => ""
  end.

(** [func(i, j int) bool { return s[i].Key < s[j].Key }] for [s] the
    slice [sm.orig] points to, on the elements [a = s[i]] and [b = s[j]]. *)
Definition Sort_less (h : heap) (a b : ptr) : bool :=
  less_key (key_at h) a b.

(** [Sort].  [sort.SliceStable] calls [less] on every index of a slice
    of two or more elements, and [less] dereferences the element: a nil
    element panics there.  A shorter slice is never compared. *)
Definition Sort (sm : t) : M heap t :=
  s <- load_slice (orig sm) ;;
  (if decide (length s < 2)%nat then ret tt
   else
     fun h =>
       if forallb (fun p => bool_decide (is_Some (rec_at h p))) s
       then store_slice (orig sm) (SliceStable (Sort_less h) s) h
       else Panic) ;;;
  ret sm.

(** *** Vocabulary of the properties *)

(** The records the elements of a slice designate, in order; [None] when an
    element designates none (a nil element). *)
Definition entries (h : heap) (s : list ptr) : option (list StringKeyValue) :=
  mapM (rec_at h) s.

(** The sequence of key/value records a map views. *)
Definition contents (h : heap) (sm : t) : option (list StringKeyValue) :=
  match orig sm with
  | None => None
  | Some c =>
      match slices h !! c with
      | None => None
      | Some s => entries h s
      end
  end.

(** The element at index [i] of [s] is [p], its key is [k], and no element
    before it has the key [k]. *)
Definition first_match (h : heap) (s : list ptr) (k : string) (i : nat)
    (p : ptr) : Prop :=
  s !! i = Some p
  /\ (exists e, rec_at h p = Some e /\ Key e = k)
  /\ forall j q, (j < i)%nat -> s !! j = Some q ->
       exists e, rec_at h q = Some e /\ Key e <> k.

(** The keys of the map are pairwise different (and every element
    designates a record). *)
Definition unique_keys (h : heap) (sm : t) : Prop :=
  exists es, contents h sm = Some es /\ NoDup (Key <$> es).

(** One call of the exported interface that returns: the constructors, the
    methods of [StringKeyValue] and the methods of [StringMap] that write.
    (The readers [Key], [Value], [Get], [Len] and [GetStringKeyValue] leave
    the store as it is.) *)
Inductive step (h h' : heap) : Prop :=
| step_NewStringKeyValue k v akv :
    StringKeyValue.NewStringKeyValue k v h = Ok akv h' -> step h h'
| step_SetValue akv v :
    StringKeyValue.SetValue akv v h = Ok tt h' -> step h h'
| step_NewStringMap attrMap order sm :
    range_order attrMap order ->
    NewStringMap attrMap order h = Ok sm h' -> step h h'
| step_Insert sm k v : Insert sm k v h = Ok tt h' -> step h h'
| step_Update sm k v : Update sm k v h = Ok tt h' -> step h h'
| step_Upsert sm k v : Upsert sm k v h = Ok tt h' -> step h h'
| step_Delete sm k b : Delete sm k h = Ok b h' -> step h h'
| step_Sort sm sm' : Sort sm h = Ok sm' h' -> step h h'.

(** What a call that returns has done to the store: nothing; allocated
    one pair; appended a new pair to a slice no element of which has its
    key; written the value of a record; swap-removed an element of a slice;
    sorted a slice; allocated the records and the slice of a new map. *)
Inductive effect (h : heap) : heap -> Prop :=
| effect_none : effect h h
| effect_alloc k v :
    effect h {| recs := recs h ++ [{| Key := k; Value := v |}];
                slices := slices h |}
| effect_append c s es k v :
    slices h !! c = Some s -> entries h s = Some es ->
    Forall (fun e => Key e <> k) es ->
    effect h {| recs := recs h ++ [{| Key := k; Value := v |}];
                slices := <[c := s ++ [Some (length (recs h))]]> (slices h) |}
| effect_set_Value i e v :
    recs h !! i = Some e ->
    effect h {| recs := <[i := {| Key := Key e; Value := v |}]> (recs h);
                slices := slices h |}
| effect_swap_remove c s i x :
    slices h !! c = Some s -> last s = Some x -> (i < length s)%nat ->
    effect h {| recs := recs h;
                slices := <[c := take (length s - 1) (<[i := x]> s)]> (slices h) |}
| effect_sort c s es :
    slices h !! c = Some s -> entries h s = Some es ->
    effect h {| recs := recs h;
                slices := <[c := SliceStable (Sort_less h) s]> (slices h) |}
| effect_new_map attrMap order :
    range_order attrMap order ->
    effect h {| recs := recs h
                  ++ ((fun kv : string * string => {| Key := kv.1; Value := kv.2 |})
                        <$> order);
                slices := slices h
                  ++ [(fun j => Some (length (recs h) + j)%nat)
                        <$> seq 0 (length order)] |}.

(** The stores a program reaches from the empty store through the exported
    interface. *)
Definition reachable (h : heap) : Prop := rtc step KV.empty h.

(** The first element of a slice whose record has the key [k], in the order
    of the slice. *)
Definition first_with_key (h : heap) (s : list ptr) (k : string) : option ptr :=
  head (filter (fun p => key_at h p = k) s).

(** The pair and the flag of a scan for [k] that meets [first_with_key]. *)
Definition Get_result (h : heap) (s : list ptr) (k : string)
    : StringKeyValue.t * bool :=
  match first_with_key h s k with
  | Some p => ({| StringKeyValue.orig := p |}, true)
  | None => ({| StringKeyValue.orig := nil |}, false)
  end.

End StringMap.

(** ** InstrumentationLibrary *)
Module InstrumentationLibrary.
Import otlpcommon.

Abbreviation heap := (list otlpcommon.InstrumentationLibrary).

(** [type InstrumentationLibrary struct { orig *otlpcommon.InstrumentationLibrary }] *)
Record t := mk { orig : ptr }.

(** The zero-initialized instance, [InstrumentationLibrary{}]. *)
Definition zero : t := {| orig := nil |}.

Definition load (p : ptr) : M heap otlpcommon.InstrumentationLibrary :=
  fun h => match p with
           | None => Panic
           | Some i => match h !! i with
                       | Some r => Ok r h
                       | None => Panic
                       end
           end.

Definition store (p : ptr)
    (f : otlpcommon.InstrumentationLibrary -> otlpcommon.InstrumentationLibrary)
  : M heap unit :=
  fun h => match p with
           | None => Panic
           | Some i => match h !! i with
                       | Some r => Ok tt (<[i := f r]> h)
                       | None => Panic
                       end
           end.

Definition set_Name (x : string) (r : otlpcommon.InstrumentationLibrary) :=
  {| otlpcommon.Name := x; otlpcommon.Version := otlpcommon.Version r |}.
Definition set_Version (x : string) (r : otlpcommon.InstrumentationLibrary) :=
  {| otlpcommon.Name := otlpcommon.Name r; otlpcommon.Version := x |}.

(** [return InstrumentationLibrary{}] *)
Definition NewInstrumentationLibrary : M heap t :=
  ret {| orig := nil |}.

Definition newInstrumentationLibrary (orig : ptr) : t := {| orig := orig |}.

Definition Name (il : t) : M heap string :=
  r <- load (orig il) ;; ret (otlpcommon.Name r).

Definition SetName (il : t) (r : string) : M heap unit :=
  store (orig il) (set_Name r).

Definition Version (il : t) : M heap string :=
  r <- load (orig il) ;; ret (otlpcommon.Version r).

Definition SetVersion (il : t) (r : string) : M heap unit :=
  store (orig il) (set_Version r).
End InstrumentationLibrary.

(** ** Example stores *)
Module Examples.
Import otlpcommon KV StringMap.

(** A store with one map of three pairs. *)
Definition abc_store : heap :=
  {| recs := [{| Key := "a"; Value := "1" |}; {| Key := "b"; Value := "2" |};
              {| Key := "c"; Value := "3" |}];
     slices := [[Some 0%nat; Some 1%nat; Some 2%nat]] |}.

Definition abc_map : StringMap.t := {| orig := Some 0%nat |}.

(** A store whose map holds the key ["a"] twice, as [newStringMap] wraps it
    for a slice that has the key twice. *)
Definition aa_store : heap :=
  {| recs := [{| Key := "a"; Value := "1" |}; {| Key := "a"; Value := "2" |}];
     slices := [[Some 0%nat; Some 1%nat]] |}.

Definition aa_map : StringMap.t := newStringMap (Some 0%nat).

(** A store whose map holds the key ["a"] once and the key ["b"] twice. *)
Definition abb_store : heap :=
  {| recs := [{| Key := "a"; Value := "1" |}; {| Key := "b"; Value := "2" |};
              {| Key := "b"; Value := "3" |}];
     slices := [[Some 0%nat; Some 1%nat; Some 2%nat]] |}.

Definition abb_map : StringMap.t := newStringMap (Some 0%nat).

(** A Go map of two entries. *)
Definition xy_attrMap : gmap string string := <["x" := "1"]> (<["y" := "2"]> ∅).

End Examples.

(** * Properties *)

(** ** AttributeValue: aliasing, frame and getters *)
Section AttributeValueFacts.
Import otlpcommon AttributeValue.
Context `{VT : ValueTypes}.
Implicit Types (h : heap) (a : t) (p : nat) (r : AttributeKeyValue).

Lemma load_Some h p r : h !! p = Some r -> load (Some p) h = Ok r h.
Proof. intros Hp. unfold load. by rewrite Hp. Qed.

Lemma store_Some h p r f :
  h !! p = Some r -> store (Some p) f h = Ok tt (<[p := f r]> h).
Proof. intros Hp. unfold store. by rewrite Hp. Qed.

(** Two assignments through the same pointer write one slot. *)
Lemma store_store h p r f g :
  h !! p = Some r ->
  (store (Some p) f ;;; store (Some p) g) h = Ok tt (<[p := g (f r)]> h).
Proof.
  intros Hp. unfold bind. rewrite (store_Some _ _ _ _ Hp).
  pose proof (lookup_lt_Some _ _ _ Hp) as Hlt.
  rewrite (store_Some _ _ (f r)) by (by apply list_lookup_insert_eq).
  by rewrite list_insert_insert_eq.
Qed.

Lemma getter_Some {A} (proj : AttributeKeyValue -> A) h p r :
  h !! p = Some r ->
  (r' <- load (Some p) ;; ret (proj r')) h = Ok (proj r) h.
Proof. intros Hp. unfold bind. by rewrite (load_Some _ _ _ Hp). Qed.

(** Every constructor returns a handle on an allocated slot. *)
Lemma loop_spec base m : forall k (pre : list t),
  length pre = k ->
  NewAttributeValueSlice_loop base (seq k m) (pre ++ replicate m {| orig := nil |})
  = pre ++ ((fun i => {| orig := Some (base + i)%nat |}) <$> seq k m).
Proof.
  induction m as [|m IH]; intros k pre Hk; simpl.
  - done.
  - rewrite <- Hk at 2. rewrite insert_app_r_alt by lia.
    replace (length pre - length pre)%nat with 0%nat by lia. simpl.
    rewrite (cons_middle _ pre), app_assoc, IH.
    + by rewrite <- app_assoc.
    + rewrite length_app. simpl. lia.
Qed.

Lemma NewAttributeValueSlice_spec (len : Z) h :
  0 <= len ->
  NewAttributeValueSlice len h
  = Ok ((fun i => {| orig := Some (length h + i)%nat |}) <$> seq 0 (Z.to_nat len))
       (h ++ replicate (Z.to_nat len) AttributeKeyValue_zero).
Proof.
  intros Hlen. unfold NewAttributeValueSlice.
  destruct (Z.ltb_spec len 0) as [?|_]; [lia|].
  unfold bind, alloc_array, ret.
  pose proof (loop_spec (length h) (Z.to_nat len) 0%nat [] eq_refl) as Hloop.
  simpl in Hloop. by rewrite Hloop.
Qed.

Lemma constructed_valid h0 a h1 :
  constructed h0 a h1 -> exists p, orig a = Some p /\ (p < length h1)%nat.
Proof.
  intros [v H|v H|v H|v H|len ws i H Hi].
  1-4: inversion H; subst; simpl; eexists; split; [done|];
       rewrite length_app; simpl; lia.
  destruct (Z.ltb_spec len 0) as [Hneg|Hlen].
  { unfold NewAttributeValueSlice in H.
    apply Z.ltb_lt in Hneg. by rewrite Hneg in H. }
  rewrite NewAttributeValueSlice_spec in H by done.
  inversion H; subst; clear H.
  apply list_lookup_fmap_Some in Hi as (j & -> & Hj).
  apply lookup_seq in Hj as [-> Hj]. simpl.
  eexists; split; [done|]. rewrite length_app, length_replicate. lia.
Qed.
Lemma SetString_spec a h p r v :
  orig a = Some p -> h !! p = Some r ->
  SetString a v h
  = Ok tt (<[p := set_StringValue v (set_Type AttributeKeyValue_STRING r)]> h).
Proof. intros Ha Hp. unfold SetString. rewrite Ha. by apply store_store. Qed.

Lemma SetInt_spec a h p r v :
  orig a = Some p -> h !! p = Some r ->
  SetInt a v h
  = Ok tt (<[p := set_IntValue v (set_Type AttributeKeyValue_INT r)]> h).
Proof. intros Ha Hp. unfold SetInt. rewrite Ha. by apply store_store. Qed.

Lemma SetDouble_spec a h p r v :
  orig a = Some p -> h !! p = Some r ->
  SetDouble a v h
  = Ok tt (<[p := set_DoubleValue v (set_Type AttributeKeyValue_DOUBLE r)]> h).
Proof. intros Ha Hp. unfold SetDouble. rewrite Ha. by apply store_store. Qed.

Lemma SetBool_spec a h p r v :
  orig a = Some p -> h !! p = Some r ->
  SetBool a v h
  = Ok tt (<[p := set_BoolValue v (set_Type AttributeKeyValue_BOOL r)]> h).
Proof. intros Ha Hp. unfold SetBool. rewrite Ha. by apply store_store. Qed.

(** The readers on a handle whose slot holds [r]. *)
Lemma readers_spec a h p r :
  orig a = Some p -> h !! p = Some r ->
  Type' a h = Ok (Type_ r) h /\ StringVal a h = Ok (StringValue r) h
  /\ IntVal a h = Ok (IntValue r) h /\ DoubleVal a h = Ok (DoubleValue r) h
  /\ BoolVal a h = Ok (BoolValue r) h.
Proof.
  intros Ha Hp. unfold Type', StringVal, IntVal, DoubleVal, BoolVal.
  rewrite Ha. repeat split; by apply getter_Some.
Qed.

Lemma observe_spec a h p r :
  orig a = Some p -> h !! p = Some r ->
  observe a h
  = (Some (Type_ r), Some (StringValue r), Some (IntValue r),
     Some (DoubleValue r), Some (BoolValue r)).
Proof.
  intros Ha Hp. destruct (readers_spec a h p r Ha Hp) as (H1 & H2 & H3 & H4 & H5).
  unfold observe, eval. by rewrite H1, H2, H3, H4, H5.
Qed.

(** C6: on a handle [a] whose pointer designates the slot [r] of the store,
    each of [StringVal], [IntVal], [DoubleVal] and [BoolVal] returns the
    payload field of [r] of its type and leaves the store as it is, whatever
    the discriminant of [r]: no reader checks [Type_ r], none panics. *)
Theorem getters_return_payload_unconditionally a h p r :
  orig a = Some p -> h !! p = Some r ->
  StringVal a h = Ok (StringValue r) h
  /\ IntVal a h = Ok (IntValue r) h
  /\ DoubleVal a h = Ok (DoubleValue r) h
  /\ BoolVal a h = Ok (BoolValue r) h.
Proof.
  intros Ha Hp. by destruct (readers_spec a h p r Ha Hp) as (_ & ? & ? & ? & ?).
Qed.

(** C5: on a handle [a] whose pointer designates the slot [p], holding [r],
    each setter leaves the store with slot [p] holding the setter's
    discriminant, the given value in the payload field of the setter's type
    and the three other payload fields as [r] had them; every other slot is
    as before. *)
Theorem setters_overwrite_discriminant_and_matching_payload a h p r :
  orig a = Some p -> h !! p = Some r ->
  (forall v, SetString a v h
     = Ok tt (<[p := {| Type_ := AttributeKeyValue_STRING; StringValue := v;
                       IntValue := IntValue r; DoubleValue := DoubleValue r;
                       BoolValue := BoolValue r |}]> h))
  /\ (forall v, SetInt a v h
     = Ok tt (<[p := {| Type_ := AttributeKeyValue_INT; StringValue := StringValue r;
                       IntValue := v; DoubleValue := DoubleValue r;
                       BoolValue := BoolValue r |}]> h))
  /\ (forall v, SetDouble a v h
     = Ok tt (<[p := {| Type_ := AttributeKeyValue_DOUBLE; StringValue := StringValue r;
                       IntValue := IntValue r; DoubleValue := v;
                       BoolValue := BoolValue r |}]> h))
  /\ (forall v, SetBool a v h
     = Ok tt (<[p := {| Type_ := AttributeKeyValue_BOOL; StringValue := StringValue r;
                       IntValue := IntValue r; DoubleValue := DoubleValue r;
                       BoolValue := v |}]> h)).
Proof.
  intros Ha Hp. repeat split; intros v.
  - by rewrite (SetString_spec a h p r v).
  - by rewrite (SetInt_spec a h p r v).
  - by rewrite (SetDouble_spec a h p r v).
  - by rewrite (SetBool_spec a h p r v).
Qed.

(** C1: let [a1] be a handle a constructor returned, [h] any later store
    (one that still holds the slots present at construction) and [a2] a copy
    of [a1].  Each setter called on [a2] with [v] succeeds, and in the store
    it leaves every handle [a3] on the same slot, [a1] among them, reads [v]
    through the matching getter and the setter's discriminant through
    [Type']. *)
Theorem setter_on_copy_visible_through_original h0 a1 h1 :
  constructed h0 a1 h1 ->
  forall h a2, (length h1 <= length h)%nat -> a2 = copy a1 ->
  (forall v, exists h', SetString a2 v h = Ok tt h' /\
     forall a3, orig a3 = orig a1 ->
       StringVal a3 h' = Ok v h' /\ Type' a3 h' = Ok AttributeValueSTRING h')
  /\ (forall v, exists h', SetInt a2 v h = Ok tt h' /\
     forall a3, orig a3 = orig a1 ->
       IntVal a3 h' = Ok v h' /\ Type' a3 h' = Ok AttributeValueINT h')
  /\ (forall v, exists h', SetDouble a2 v h = Ok tt h' /\
     forall a3, orig a3 = orig a1 ->
       DoubleVal a3 h' = Ok v h' /\ Type' a3 h' = Ok AttributeValueDOUBLE h')
  /\ (forall v, exists h', SetBool a2 v h = Ok tt h' /\
     forall a3, orig a3 = orig a1 ->
       BoolVal a3 h' = Ok v h' /\ Type' a3 h' = Ok AttributeValueBOOL h').
Proof.
  intros Hc h a2 Hlen ->.
  destruct (constructed_valid _ _ _ Hc) as (p & Ha & Hp).
  destruct (lookup_lt_is_Some_2 h p) as [r Hr]; [lia|].
  assert (Hlt : (p < length h)%nat) by lia.
  repeat split; intros v; eexists; (split; [|intros a3 Ha3; rewrite Ha in Ha3]).
  - by apply (SetString_spec _ h p r).
  - edestruct (readers_spec a3) as (H1 & H2 & _); [done|by apply list_lookup_insert_eq|].
    by rewrite H1, H2.
  - by apply (SetInt_spec _ h p r).
  - edestruct (readers_spec a3) as (H1 & _ & H2 & _); [done|by apply list_lookup_insert_eq|].
    by rewrite H1, H2.
  - by apply (SetDouble_spec _ h p r).
  - edestruct (readers_spec a3) as (H1 & _ & _ & H2 & _); [done|by apply list_lookup_insert_eq|].
    by rewrite H1, H2.
  - by apply (SetBool_spec _ h p r).
  - edestruct (readers_spec a3) as (H1 & _ & _ & _ & H2); [done|by apply list_lookup_insert_eq|].
    by rewrite H1, H2.
Qed.

(** Writing the slot of one handle leaves what another slot's handle
    observes. *)
Lemma observe_insert_ne a h p q r :
  orig a = Some q -> p <> q -> observe a (<[p := r]> h) = observe a h.
Proof.
  intros Ha Hne. unfold observe, eval, Type', StringVal, IntVal, DoubleVal, BoolVal,
    bind, load. rewrite Ha.
  rewrite list_lookup_insert_ne by done.
  by destruct (h !! q).
Qed.

(** C8: for [0 <= n], [NewAttributeValueSlice n] extends the store by one
    array of [n] zero records and returns [n] handles, the handle at index
    [i] on slot [i] of that array.  In every later store, for [i <> j] the
    handles at [i] and [j] designate different slots, the handle at [j]
    observes a discriminant and four payloads ([rj]), and each setter on
    the handle at [i] succeeds and leaves all five observations through the
    handle at [j] as they were. *)
Theorem NewAttributeValueSlice_slots_independent (n : Z) h :
  0 <= n ->
  exists ws,
    NewAttributeValueSlice n h
    = Ok ws (h ++ replicate (Z.to_nat n) AttributeKeyValue_zero)
    /\ length ws = Z.to_nat n
    /\ (forall i, (i < Z.to_nat n)%nat ->
          ws !! i = Some {| orig := Some (length h + i)%nat |})
    /\ (forall hx i j ai aj,
          (length h + Z.to_nat n <= length hx)%nat -> i <> j ->
          ws !! i = Some ai -> ws !! j = Some aj ->
          orig ai <> orig aj
          /\ (exists rj, observe aj hx
                = (Some (Type_ rj), Some (StringValue rj), Some (IntValue rj),
                   Some (DoubleValue rj), Some (BoolValue rj)))
          /\ (forall v, exists hx', SetString ai v hx = Ok tt hx'
                /\ observe aj hx' = observe aj hx)
          /\ (forall v, exists hx', SetInt ai v hx = Ok tt hx'
                /\ observe aj hx' = observe aj hx)
          /\ (forall v, exists hx', SetDouble ai v hx = Ok tt hx'
                /\ observe aj hx' = observe aj hx)
          /\ (forall v, exists hx', SetBool ai v hx = Ok tt hx'
                /\ observe aj hx' = observe aj hx)).
Proof.
  intros Hn. eexists. split; [by apply NewAttributeValueSlice_spec|].
  split; [by rewrite length_fmap, length_seq|].
  split.
  { intros i Hi. rewrite list_lookup_fmap, lookup_seq_lt by done. done. }
  intros hx i j ai aj Hlen Hij Hi Hj.
  apply list_lookup_fmap_Some in Hi as (i' & -> & Hi).
  apply lookup_seq in Hi as [-> Hi].
  apply list_lookup_fmap_Some in Hj as (j' & -> & Hj).
  apply lookup_seq in Hj as [-> Hj]. simpl in *.
  destruct (lookup_lt_is_Some_2 hx (length h + i)) as [ri Hri]; [lia|].
  destruct (lookup_lt_is_Some_2 hx (length h + j)) as [rj Hrj]; [lia|].
  assert (Hne : (length h + i)%nat <> (length h + j)%nat) by lia.
  split; [intros [=]; lia|].
  split; [exists rj; by apply (observe_spec _ hx (length h + j)%nat)|].
  repeat split; intros v; eexists.
  - split; [by apply (SetString_spec _ hx (length h + i)%nat ri)|].
    by apply (observe_insert_ne _ _ _ (length h + j)%nat).
  - split; [by apply (SetInt_spec _ hx (length h + i)%nat ri)|].
    by apply (observe_insert_ne _ _ _ (length h + j)%nat).
  - split; [by apply (SetDouble_spec _ hx (length h + i)%nat ri)|].
    by apply (observe_insert_ne _ _ _ (length h + j)%nat).
  - split; [by apply (SetBool_spec _ hx (length h + i)%nat ri)|].
    by apply (observe_insert_ne _ _ _ (length h + j)%nat).
Qed.

End AttributeValueFacts.

(** ** The order on strings and stable sorting by a string key *)
Section StringOrder.
Implicit Types a b c : string.

Lemma string_compare_refl a : String.compare a a = Eq.
Proof.
  induction a as [|x a IH]; simpl; [done|].
  unfold Ascii.compare. by rewrite N.compare_refl.
Qed.

Lemma string_compare_lt_trans a b c :
  String.compare a b = Lt -> String.compare b c = Lt -> String.compare a c = Lt.
Proof.
  revert b c. induction a as [|x a IH]; intros [|y b] [|z c]; simpl; try done.
  unfold Ascii.compare.
  destruct (N.compare_spec (Ascii.N_of_ascii x) (Ascii.N_of_ascii y)) as [Hxy|Hxy|Hxy],
           (N.compare_spec (Ascii.N_of_ascii y) (Ascii.N_of_ascii z)) as [Hyz|Hyz|Hyz],
           (N.compare_spec (Ascii.N_of_ascii x) (Ascii.N_of_ascii z)) as [Hxz|Hxz|Hxz];
    try done; try lia; eauto.
Qed.

Lemma string_ltb_irrefl a : String.ltb a a = false.
Proof. unfold String.ltb. by rewrite string_compare_refl. Qed.

Lemma string_ltb_trans a b c :
  String.ltb a b = true -> String.ltb b c = true -> String.ltb a c = true.
Proof.
  unfold String.ltb. intros Hab Hbc.
  destruct (String.compare a b) eqn:E1; try done.
  destruct (String.compare b c) eqn:E2; try done.
  by rewrite (string_compare_lt_trans a b c).
Qed.

Lemma string_ltb_asym a b : String.ltb a b = true -> String.ltb b a = false.
Proof.
  unfold String.ltb. rewrite (String.compare_antisym a b).
  by destruct (String.compare b a).
Qed.

Lemma string_ltb_trichotomy a b :
  a <> b -> String.ltb a b = true \/ String.ltb b a = true.
Proof.
  intros Hne. unfold String.ltb. rewrite (String.compare_antisym a b).
  destruct (String.compare b a) eqn:E; simpl; auto.
  apply String.compare_eq_iff in E. congruence.
Qed.

Lemma string_leb_ltb a b : String.leb a b = negb (String.ltb b a).
Proof.
  unfold String.leb, String.ltb. rewrite (String.compare_antisym a b).
  by destruct (String.compare b a).
Qed.

(** [b <= a] and [a < c] give [b < c]. *)
Lemma string_nlt_lt_trans a b c :
  String.ltb a b = false -> String.ltb a c = true -> String.ltb b c = true.
Proof.
  intros Hab Hac. destruct (decide (b = c)) as [->|Hne]; [congruence|].
  destruct (string_ltb_trichotomy b c Hne) as [|Hcb]; [done|].
  by rewrite (string_ltb_trans a c b) in Hab.
Qed.

Lemma string_leb_trans a b c :
  String.leb a b = true -> String.leb b c = true -> String.leb a c = true.
Proof.
  rewrite !string_leb_ltb, !negb_true_iff. intros Hba Hcb.
  destruct (String.ltb c a) eqn:Hca; [|done].
  by rewrite (string_nlt_lt_trans c b a) in Hba.
Qed.

End StringOrder.

Section SliceStableFacts.
Context {A : Type} (key : A -> string).
Implicit Types (x y : A) (l : list A).

Local Abbreviation less_key := (less_key key).
Local Abbreviation ascending := (ascending key).

Lemma SliceStable_insert_perm x l : SliceStable_insert less_key x l ≡ₚ x :: l.
Proof.
  induction l as [|y l IH]; simpl; [done|].
  destruct (less_key y x); [|done].
  rewrite IH. apply Permutation_swap.
Qed.

Lemma SliceStable_perm l : SliceStable less_key l ≡ₚ l.
Proof.
  induction l as [|x l IH]; simpl; [done|].
  by rewrite SliceStable_insert_perm, IH.
Qed.

Lemma SliceStable_insert_ascending x l :
  ascending l -> ascending (SliceStable_insert less_key x l).
Proof.
  unfold ascending. induction 1 as [|y l Hl IH Hy]; simpl.
  - repeat constructor.
  - destruct (less_key y x) eqn:Hyx.
    + constructor; [done|].
      rewrite SliceStable_insert_perm. constructor; [|done].
      rewrite string_leb_ltb. unfold less_key in Hyx.
      by rewrite (string_ltb_asym _ _ Hyx).
    + assert (Hxy : String.leb (key x) (key y) = true).
      { rewrite string_leb_ltb. unfold less_key in Hyx. by rewrite Hyx. }
      constructor; [by constructor|]. constructor; [done|].
      eapply Forall_impl; [exact Hy|]. simpl. intros z Hz.
      by apply (string_leb_trans _ (key y)).
Qed.

Lemma SliceStable_ascending l : ascending (SliceStable less_key l).
Proof.
  induction l as [|x l IH]; simpl; [constructor|].
  by apply SliceStable_insert_ascending.
Qed.

(** Stability: an element is inserted in front of every element of its
    own key. *)
Lemma SliceStable_insert_filter (k : string) x l :
  filter (fun y => key y = k) (SliceStable_insert less_key x l)
  = filter (fun y => key y = k) (x :: l).
Proof.
  induction l as [|y l IH]; simpl; [done|].
  destruct (less_key y x) eqn:Hyx; [|done].
  rewrite (filter_cons _ y (SliceStable_insert _ _ _)), IH.
  rewrite !filter_cons.
  destruct (decide (key y = k)) as [Hy|Hy], (decide (key x = k)) as [Hx|Hx];
    try done.
  unfold less_key in Hyx. rewrite Hy, Hx, string_ltb_irrefl in Hyx. done.
Qed.

Lemma SliceStable_filter (k : string) l :
  filter (fun y => key y = k) (SliceStable less_key l)
  = filter (fun y => key y = k) l.
Proof.
  induction l as [|x l IH]; simpl; [done|].
  rewrite SliceStable_insert_filter, !filter_cons. by rewrite IH.
Qed.

(** A list that is ascending already is left as it is. *)
Lemma SliceStable_ascending_id l : ascending l -> SliceStable less_key l = l.
Proof.
  induction 1 as [|x l Hl IH Hx]; simpl; [done|].
  rewrite IH. destruct Hx as [|y l Hxy _]; simpl; [done|].
  unfold less_key. rewrite string_leb_ltb, negb_true_iff in Hxy.
  by rewrite Hxy.
Qed.

Lemma SliceStable_idempotent l :
  SliceStable less_key (SliceStable less_key l) = SliceStable less_key l.
Proof. apply SliceStable_ascending_id, SliceStable_ascending. Qed.

(** Insertions of elements of different keys commute. *)
Lemma SliceStable_insert_comm x y l :
  key x <> key y ->
  SliceStable_insert less_key y (SliceStable_insert less_key x l)
  = SliceStable_insert less_key x (SliceStable_insert less_key y l).
Proof.
  intros Hne.
  assert (Hxy : less_key x y = negb (less_key y x)).
  { unfold less_key. destruct (string_ltb_trichotomy _ _ Hne) as [H|H];
      rewrite H; by rewrite (string_ltb_asym _ _ H). }
  induction l as [|z l IH]; simpl.
  - rewrite Hxy. by destruct (less_key y x).
  - destruct (less_key z x) eqn:Hzx, (less_key z y) eqn:Hzy; simpl;
      rewrite ?Hzx, ?Hzy.
    + by rewrite IH.
    + assert (less_key y x = true) as ->; [|done].
      unfold less_key in *. by apply (string_nlt_lt_trans (key z)).
    + assert (less_key x y = true) as ->; [|done].
      unfold less_key in *. by apply (string_nlt_lt_trans (key z)).
    + rewrite Hxy. by destruct (less_key y x).
Qed.

(** Canonical form: lists with the same elements and pairwise different
    keys sort to the same list. *)
Lemma SliceStable_canonical l1 l2 :
  l1 ≡ₚ l2 -> NoDup (key <$> l1) ->
  SliceStable less_key l1 = SliceStable less_key l2.
Proof.
  induction 1 as [|x l1 l2 Hp IH|x y l|l1 l2 l3 Hp1 IH1 Hp2 IH2]; intros Hnd.
  - done.
  - simpl. rewrite IH; [done|]. by apply NoDup_cons_1_2 in Hnd.
  - simpl. apply SliceStable_insert_comm.
    rewrite !fmap_cons in Hnd. apply NoDup_cons_1_1 in Hnd.
    intros Heq. apply Hnd. rewrite Heq. left.
  - rewrite IH1, IH2; [done| |done]. by rewrite <- Hp1.
Qed.

End SliceStableFacts.

(** ** StringMap: the scans of [Get] and [Delete] *)
Section StringMapScans.
Import otlpcommon KV StringMap.
Implicit Types (h : heap) (s : list ptr) (es : list StringKeyValue)
  (k : string) (p : ptr) (sm : StringMap.t).

Lemma entries_Forall2 h s es :
  entries h s = Some es <-> Forall2 (fun p e => rec_at h p = Some e) s es.
Proof. apply mapM_Some. Qed.

Lemma entries_nil h : entries h [] = Some [].
Proof. done. Qed.

Lemma entries_cons h p s :
  entries h (p :: s)
  = match rec_at h p with
    | Some e => match entries h s with
                | Some es => Some (e :: es)
                | None => None
                end
    | None => None
    end.
Proof.
  unfold entries. simpl. destruct (rec_at h p); [|done].
  simpl. by destruct (mapM (rec_at h) s).
Qed.

Lemma entries_length h s es : entries h s = Some es -> length es = length s.
Proof.
  intros H. apply entries_Forall2 in H. symmetry. by eapply Forall2_length.
Qed.

Lemma first_match_here h p s k :
  first_match h (p :: s) k 0 p <-> exists e, rec_at h p = Some e /\ Key e = k.
Proof.
  unfold first_match. split.
  - by intros (_ & He & _).
  - intros He. repeat split; [done|]. intros j q Hj. lia.
Qed.

Lemma first_match_later h q s k i p :
  first_match h (q :: s) k (S i) p
  <-> (exists e, rec_at h q = Some e /\ Key e <> k) /\ first_match h s k i p.
Proof.
  unfold first_match. split.
  - intros (Hi & He & Hbefore). split; [by apply (Hbefore 0%nat); [lia|]|].
    repeat split; [done..|]. intros j q' Hj Hq'.
    apply (Hbefore (S j)); [lia|done].
  - intros (Hq & Hi & He & Hbefore). repeat split; [done..|].
    intros [|j] q' Hj Hq'; simpl in Hq'.
    + by injection Hq' as <-.
    + apply (Hbefore j); [lia|done].
Qed.

Lemma first_match_head_eq h q s k i p e :
  first_match h (q :: s) k i p -> rec_at h q = Some e -> Key e = k ->
  i = 0%nat /\ p = q.
Proof.
  intros Hm Hq Hk. destruct i as [|i].
  - destruct Hm as (Hi & _). simpl in Hi. by injection Hi as <-.
  - apply first_match_later in Hm as ((e' & He' & Hne) & _). congruence.
Qed.

(** The scan of [Get] reads only. *)
Lemma Get_loop_reads s k h x h' : Get_loop s k h = Ok x h' -> h' = h.
Proof.
  induction s as [|q s IH]; simpl.
  - by intros [= _ <-].
  - unfold bind, load_rec. destruct (rec_at h q) as [e|]; [|done].
    destruct (String.eqb (Key e) k); [by intros [= _ <-]|done].
Qed.

Lemma Get_loop_found_inv s k h a :
  Get_loop s k h = Ok (a, true) h ->
  exists i, first_match h s k i (StringKeyValue.orig a).
Proof.
  induction s as [|q s IH]; simpl; [done|].
  unfold bind, load_rec. destruct (rec_at h q) as [e|] eqn:Hq; [|done].
  destruct (String.eqb_spec (Key e) k) as [Hk|Hk].
  - intros [= <-]. exists 0%nat. apply first_match_here. eauto.
  - intros H. destruct (IH H) as [i Hi]. exists (S i).
    apply first_match_later. eauto.
Qed.

Lemma Get_loop_absent_inv s k h a :
  Get_loop s k h = Ok (a, false) h ->
  a = {| StringKeyValue.orig := nil |}
  /\ exists es, entries h s = Some es /\ Forall (fun e => Key e <> k) es.
Proof.
  induction s as [|q s IH]; cbn [Get_loop].
  - intros [= <-]. split; [done|]. exists []. by split.
  - unfold bind, load_rec. rewrite entries_cons.
    destruct (rec_at h q) as [e|] eqn:Hq; [|done].
    destruct (String.eqb_spec (Key e) k) as [Hk|Hk]; [done|].
    intros H. destruct (IH H) as (-> & es & -> & Hes).
    split; [done|]. exists (e :: es). split; [done|]. by constructor.
Qed.

Lemma Get_loop_first_match s k h i p :
  first_match h s k i p ->
  Get_loop s k h = Ok ({| StringKeyValue.orig := p |}, true) h.
Proof.
  revert i. induction s as [|q s IH]; intros i Hm.
  - by destruct Hm as (Hi & _).
  - simpl. unfold bind, load_rec. destruct i as [|i].
    + pose proof Hm as (Hi & _). simpl in Hi. injection Hi as ->.
      apply first_match_here in Hm as (e & -> & <-).
      by rewrite String.eqb_refl.
    + apply first_match_later in Hm as ((e & -> & Hne) & Hm).
      destruct (String.eqb_spec (Key e) k) as [Hk|Hk]; [done|].
      by apply (IH i).
Qed.

Lemma Get_loop_absent s k h es :
  entries h s = Some es -> Forall (fun e => Key e <> k) es ->
  Get_loop s k h = Ok ({| StringKeyValue.orig := nil |}, false) h.
Proof.
  revert es. induction s as [|q s IH]; intros es; [done|].
  rewrite entries_cons. simpl. unfold bind, load_rec.
  destruct (rec_at h q) as [e|]; [|done].
  destruct (entries h s) as [es'|]; [|done].
  intros [= <-] Hall. apply Forall_cons in Hall as [Hne Hall].
  destruct (String.eqb_spec (Key e) k) as [Hk|Hk]; [done|].
  by apply (IH es').
Qed.

(** A scan of a slice of records either meets the key or does not. *)
Lemma entries_match_or_absent h s es k :
  entries h s = Some es ->
  Forall (fun e => Key e <> k) es
  \/ exists i p, first_match h s k i p.
Proof.
  revert es. induction s as [|q s IH]; intros es.
  - intros [= <-]. by left.
  - rewrite entries_cons. destruct (rec_at h q) as [e|] eqn:Hq; [|done].
    destruct (entries h s) as [es'|]; [|done]. intros [= <-].
    destruct (decide (Key e = k)) as [Hk|Hk].
    { right. exists 0%nat, q. apply first_match_here. eauto. }
    destruct (IH es' eq_refl) as [Hall|(i & p & Hm)].
    + left. by constructor.
    + right. exists (S i), p. apply first_match_later. eauto.
Qed.

End StringMapScans.

(** ** StringMap: what the writers leave in the store *)
Section StringMapWrites.
Import otlpcommon KV StringMap.
Implicit Types (h : heap) (s : list ptr) (es : list StringKeyValue)
  (k v : string) (p : ptr) (sm : StringMap.t) (c : nat).

Lemma load_slice_Some h c s :
  slices h !! c = Some s -> load_slice (Some c) h = Ok s h.
Proof. intros Hc. unfold load_slice. by rewrite Hc. Qed.

Lemma store_slice_Some h c s s' :
  slices h !! c = Some s ->
  store_slice (Some c) s' h
  = Ok tt {| recs := recs h; slices := <[c := s']> (slices h) |}.
Proof. intros Hc. unfold store_slice. by rewrite Hc. Qed.

(** Swap-remove at index [i]: the last element is written to slot [i] and
    the slice is cut by one. *)
Lemma Delete_at_spec sm c s x i h :
  orig sm = Some c -> slices h !! c = Some s -> last s = Some x ->
  (i < length s)%nat ->
  Delete_at sm i h
  = Ok tt {| recs := recs h;
             slices := <[c := take (length s - 1) (<[i := x]> s)]> (slices h) |}.
Proof.
  intros Hsm Hc Hlast Hi. unfold Delete_at, bind. rewrite Hsm.
  rewrite (load_slice_Some _ _ _ Hc). unfold index.
  rewrite last_lookup in Hlast.
  replace (length s - 1)%nat with (pred (length s)) by lia. rewrite Hlast.
  rewrite decide_True by done.
  rewrite (store_slice_Some _ _ _ _ Hc).
  pose proof (lookup_lt_Some _ _ _ Hc) as Hlt.
  erewrite load_slice_Some; [|by apply list_lookup_insert_eq].
  erewrite store_slice_Some; [|by apply list_lookup_insert_eq].
  cbn [recs slices]. rewrite list_insert_insert_eq, length_insert.
  by replace (length s - 1)%nat with (pred (length s)) by lia.
Qed.

Lemma Delete_loop_found sm c whole x k h :
  orig sm = Some c -> slices h !! c = Some whole -> last whole = Some x ->
  forall rest pre i p,
    whole = pre ++ rest -> first_match h rest k i p ->
    Delete_loop sm (length pre) rest k h
    = Ok true {| recs := recs h;
                 slices := <[c := take (length whole - 1)
                                       (<[(length pre + i)%nat := x]> whole)]>
                             (slices h) |}.
Proof.
  intros Hsm Hc Hlast. induction rest as [|a rest IH]; intros pre i p Hw Hm.
  { by destruct Hm as (Hi & _). }
  cbn [Delete_loop]. unfold bind at 1. unfold load_rec. destruct i as [|i].
  - pose proof Hm as (Hi & _). simpl in Hi. injection Hi as ->.
    apply first_match_here in Hm as (e & -> & <-).
    rewrite String.eqb_refl. unfold bind.
    rewrite (Delete_at_spec sm c whole x (length pre) h); try done.
    + by rewrite Nat.add_0_r.
    + rewrite Hw, length_app. simpl. lia.
  - apply first_match_later in Hm as ((e & -> & Hne) & Hm).
    destruct (String.eqb_spec (Key e) k) as [Hk|Hk]; [done|].
    specialize (IH (pre ++ [a]) i p).
    rewrite length_app in IH. simpl in IH.
    replace (length pre + 1)%nat with (S (length pre)) in IH by lia.
    rewrite IH; [|by rewrite <- app_assoc|done].
    by replace (S (length pre) + i)%nat with (length pre + S i)%nat by lia.
Qed.

Lemma Delete_loop_absent sm i k h s es :
  entries h s = Some es -> Forall (fun e => Key e <> k) es ->
  Delete_loop sm i s k h = Ok false h.
Proof.
  revert i es. induction s as [|q s IH]; intros i es; [done|].
  rewrite entries_cons. cbn [Delete_loop]. unfold bind, load_rec.
  destruct (rec_at h q) as [e|]; [|done].
  destruct (entries h s) as [es'|]; [|done].
  intros [= <-] Hall. apply Forall_cons in Hall as [Hne Hall].
  destruct (String.eqb_spec (Key e) k) as [Hk|Hk]; [done|].
  by apply (IH _ es').
Qed.

(** [Get] at the level of the map. *)
Lemma Get_inv sm k h x h' :
  Get sm k h = Ok x h' ->
  h' = h /\ exists c s, orig sm = Some c /\ slices h !! c = Some s
                     /\ Get_loop s k h = Ok x h.
Proof.
  unfold Get, bind, load_slice. destruct (orig sm) as [c|]; [|done].
  destruct (slices h !! c) as [s|] eqn:Hc; [|done].
  intros H. pose proof (Get_loop_reads _ _ _ _ _ H) as ->. eauto 6.
Qed.

Lemma Get_eval_inv sm k h x :
  eval (Get sm k) h = Some x ->
  Get sm k h = Ok x h
  /\ exists c s, orig sm = Some c /\ slices h !! c = Some s
               /\ Get_loop s k h = Ok x h.
Proof.
  unfold eval. destruct (Get sm k h) as [y h'|] eqn:HG; [|done].
  intros [= ->]. destruct (Get_inv _ _ _ _ _ HG) as (-> & Hrest). done.
Qed.

Lemma Get_run sm c s k h x :
  orig sm = Some c -> slices h !! c = Some s ->
  Get_loop s k h = Ok x h -> Get sm k h = Ok x h.
Proof.
  intros Hsm Hc HG. unfold Get, bind. rewrite Hsm.
  by rewrite (load_slice_Some _ _ _ Hc).
Qed.

Lemma SetValue_spec (a : StringKeyValue.t) i e v h :
  StringKeyValue.orig a = Some i -> recs h !! i = Some e ->
  StringKeyValue.SetValue a v h
  = Ok tt {| recs := <[i := {| Key := Key e; Value := v |}]> (recs h);
             slices := slices h |}.
Proof.
  intros Ha Hi. unfold StringKeyValue.SetValue, store_rec. by rewrite Ha, Hi.
Qed.

(** The [append] of a new pair to the slice of the map, stored back. *)
Lemma append_new_spec sm c s k v h :
  orig sm = Some c -> slices h !! c = Some s ->
  (kv <- StringKeyValue.NewStringKeyValue k v ;;
   s <- load_slice (orig sm) ;;
   store_slice (orig sm) (s ++ [StringKeyValue.orig kv])) h
  = Ok tt {| recs := recs h ++ [{| Key := k; Value := v |}];
             slices := <[c := s ++ [Some (length (recs h))]]> (slices h) |}.
Proof.
  intros Hsm Hc. unfold bind, StringKeyValue.NewStringKeyValue, bind, alloc_rec, ret.
  rewrite Hsm. by rewrite (load_slice_Some _ c s), (store_slice_Some _ c s).
Qed.

Lemma Insert_present sm k v h a :
  Get sm k h = Ok (a, true) h -> Insert sm k v h = Ok tt h.
Proof. intros HG. unfold Insert, bind. by rewrite HG. Qed.

Lemma Insert_absent sm c s k v h a :
  orig sm = Some c -> slices h !! c = Some s ->
  Get sm k h = Ok (a, false) h ->
  Insert sm k v h
  = Ok tt {| recs := recs h ++ [{| Key := k; Value := v |}];
             slices := <[c := s ++ [Some (length (recs h))]]> (slices h) |}.
Proof.
  intros Hsm Hc HG. unfold Insert. unfold bind at 1. rewrite HG. simpl.
  by apply append_new_spec.
Qed.

Lemma Upsert_present sm k v h (a : StringKeyValue.t) i e :
  Get sm k h = Ok (a, true) h ->
  StringKeyValue.orig a = Some i -> recs h !! i = Some e ->
  Upsert sm k v h
  = Ok tt {| recs := <[i := {| Key := Key e; Value := v |}]> (recs h);
             slices := slices h |}.
Proof.
  intros HG Ha Hi. unfold Upsert. unfold bind at 1. rewrite HG. simpl.
  by apply SetValue_spec.
Qed.

Lemma Upsert_absent sm c s k v h a :
  orig sm = Some c -> slices h !! c = Some s ->
  Get sm k h = Ok (a, false) h ->
  Upsert sm k v h
  = Ok tt {| recs := recs h ++ [{| Key := k; Value := v |}];
             slices := <[c := s ++ [Some (length (recs h))]]> (slices h) |}.
Proof.
  intros Hsm Hc HG. unfold Upsert. unfold bind at 1. rewrite HG. simpl.
  by apply append_new_spec.
Qed.

Lemma Update_present sm k v h (a : StringKeyValue.t) i e :
  Get sm k h = Ok (a, true) h ->
  StringKeyValue.orig a = Some i -> recs h !! i = Some e ->
  Update sm k v h
  = Ok tt {| recs := <[i := {| Key := Key e; Value := v |}]> (recs h);
             slices := slices h |}.
Proof.
  intros HG Ha Hi. unfold Update. unfold bind at 1. rewrite HG. simpl.
  by apply SetValue_spec.
Qed.

Lemma Update_absent sm k v h a :
  Get sm k h = Ok (a, false) h -> Update sm k v h = Ok tt h.
Proof. intros HG. unfold Update, bind. by rewrite HG. Qed.

(** The record a found pair designates. *)
Lemma first_match_rec h s k i p :
  first_match h s k i p ->
  exists j e, p = Some j /\ recs h !! j = Some e /\ Key e = k.
Proof.
  intros (_ & (e & He & Hk) & _). destruct p as [j|]; [|done]. eauto.
Qed.

(** *** Frames: what allocation and [SetValue] leave of a slice's records *)

Lemma rec_at_alloc h h' extra p e :
  recs h' = recs h ++ extra -> rec_at h p = Some e -> rec_at h' p = Some e.
Proof.
  intros Hr. destruct p as [j|]; [|done]. simpl. rewrite Hr.
  apply lookup_app_l_Some.
Qed.

Lemma entries_alloc h h' extra s es :
  recs h' = recs h ++ extra -> entries h s = Some es -> entries h' s = Some es.
Proof.
  intros Hr. rewrite !entries_Forall2. intros H.
  eapply Forall2_impl; [exact H|]. simpl.
  intros p e. by apply rec_at_alloc with extra.
Qed.

Lemma entries_same_recs h h' s : recs h' = recs h -> entries h' s = entries h s.
Proof.
  intros Hr. unfold entries. apply mapM_ext. intros [j|]; simpl; [|done].
  by rewrite Hr.
Qed.

Lemma rec_at_set_Value h h' i e0 v p e :
  recs h' = <[i := {| Key := Key e0; Value := v |}]> (recs h) ->
  recs h !! i = Some e0 -> rec_at h p = Some e ->
  exists e', rec_at h' p = Some e' /\ Key e' = Key e
    /\ (p <> Some i -> e' = e) /\ (p = Some i -> Value e' = v).
Proof.
  intros Hr Hi. destruct p as [j|]; [|done]. simpl. rewrite Hr. intros Hj.
  destruct (decide (i = j)) as [->|Hne].
  - rewrite list_lookup_insert_eq by (by eapply lookup_lt_Some).
    eexists; split; [done|]. simpl. split; [congruence|]. by split.
  - rewrite list_lookup_insert_ne by done.
    eexists; split; [done|]. split; [done|]. split; [done|]. congruence.
Qed.

Lemma entries_set_Value h h' i e0 v s es :
  recs h' = <[i := {| Key := Key e0; Value := v |}]> (recs h) ->
  recs h !! i = Some e0 -> entries h s = Some es ->
  exists es', entries h' s = Some es' /\ Key <$> es' = Key <$> es.
Proof.
  intros Hr Hi. rewrite entries_Forall2. induction 1 as [|p e s es Hp _ IH].
  - by exists [].
  - destruct IH as (es' & Hes' & Hk).
    destruct (rec_at_set_Value h h' i e0 v p e Hr Hi Hp) as (e' & He' & Hke & _).
    exists (e' :: es'). rewrite entries_cons, He', Hes'.
    split; [done|]. rewrite !fmap_cons. congruence.
Qed.

Lemma first_match_set_Value h h' i e0 v s k j p :
  recs h' = <[i := {| Key := Key e0; Value := v |}]> (recs h) ->
  recs h !! i = Some e0 -> first_match h s k j p -> first_match h' s k j p.
Proof.
  intros Hr Hi (Hj & (e & He & Hk) & Hbefore). repeat split; [done| |].
  - destruct (rec_at_set_Value h h' i e0 v p e Hr Hi He) as (e' & He' & Hke & _).
    exists e'. split; [done|congruence].
  - intros j' q Hlt Hq. destruct (Hbefore j' q Hlt Hq) as (eq & Heq & Hne).
    destruct (rec_at_set_Value h h' i e0 v q eq Hr Hi Heq) as (e' & He' & Hke & _).
    exists e'. split; [done|congruence].
Qed.

End StringMapWrites.

(** ** Swap-remove on a list *)
Section SwapRemove.
Context {A : Type}.
Implicit Types (l : list A) (x : A) (i : nat).

(** Writing the last element to slot [i] and cutting the list by one
    leaves the elements other than the one at [i], in some order. *)
Lemma swap_remove_Permutation l i x :
  (i < length l)%nat -> last l = Some x ->
  take (length l - 1) (<[i := x]> l) ≡ₚ delete i l.
Proof.
  intros Hi Hlast. apply last_Some in Hlast as [l' ->].
  rewrite length_app in *. simpl in *.
  replace (length l' + 1 - 1)%nat with (length l') by lia.
  destruct (decide (i = length l')) as [->|Hne].
  - rewrite list_insert_id by (by apply list_lookup_middle).
    by rewrite take_app_length, delete_middle, app_nil_r.
  - assert (Hlt : (i < length l')%nat) by lia.
    rewrite insert_app_l by done.
    rewrite take_app_length' by (by rewrite length_insert).
    destruct (lookup_lt_is_Some_2 l' i Hlt) as [y Hy].
    apply list_elem_of_split_length in Hy as (l1 & l2 & -> & ->).
    replace (length l1) with (length l1 + 0)%nat at 1 by lia.
    rewrite insert_app_r. simpl.
    rewrite <- app_assoc. simpl. rewrite delete_middle.
    rewrite <- Permutation_middle, (Permutation_app_comm l2 [x]).
    simpl. by rewrite <- Permutation_middle.
Qed.

Lemma swap_remove_length l i x :
  (0 < length l)%nat ->
  (length (take (length l - 1) (<[i := x]> l)) + 1)%nat = length l.
Proof. intros Hl. rewrite length_take, length_insert. lia. Qed.

Lemma swap_remove_NoDup l i x :
  (i < length l)%nat -> last l = Some x -> NoDup l ->
  NoDup (take (length l - 1) (<[i := x]> l)).
Proof.
  intros Hi Hlast Hnd. rewrite swap_remove_Permutation by done.
  apply (sublist_NoDup _ l); [exact Hnd|apply sublist_delete].
Qed.

Lemma swap_remove_not_elem l i x y :
  (i < length l)%nat -> last l = Some x -> NoDup l -> l !! i = Some y ->
  y ∉ take (length l - 1) (<[i := x]> l).
Proof.
  intros Hi Hlast Hnd Hy. rewrite swap_remove_Permutation by done.
  rewrite (delete_Permutation l i y Hy) in Hnd. by apply NoDup_cons_1_1 in Hnd.
Qed.

End SwapRemove.

(** ** StringMap: Insert, Upsert and Delete *)
Section StringMapOperations.
Import otlpcommon KV StringMap.
Implicit Types (h : heap) (s : list ptr) (es : list StringKeyValue)
  (k v : string) (p : ptr) (sm : StringMap.t) (c : nat).

Lemma NewStringMap_empty_run order h0 :
  NewStringMap ∅ order h0
  = Ok {| orig := Some (length (slices h0)) |}
       {| recs := recs h0; slices := slices h0 ++ [[]] |}.
Proof. unfold NewStringMap. by rewrite decide_True by apply map_size_empty. Qed.

(** In the store an append leaves, the new pair is the first match of its
    key when no earlier element has the key. *)
Lemma first_match_appended h s es k v :
  entries h s = Some es -> Forall (fun e => Key e <> k) es ->
  first_match
    {| recs := recs h ++ [{| Key := k; Value := v |}]; slices := slices h |}
    (s ++ [Some (length (recs h))]) k (length s) (Some (length (recs h))).
Proof.
  intros Hes Hall. repeat split.
  - by apply list_lookup_middle.
  - eexists. split; [by apply list_lookup_middle|done].
  - intros j q Hj Hq. rewrite lookup_app_l in Hq by done.
    apply entries_Forall2 in Hes.
    destruct (Forall2_lookup_l _ _ _ _ _ Hes Hq) as (e & He & Hqe).
    exists e. split.
    + by apply (rec_at_alloc h _ [{| Key := k; Value := v |}]).
    + eapply Forall_lookup_1 in Hall; [exact Hall|exact He].
Qed.

Lemma first_match_same_recs h h' s k i p :
  recs h' = recs h -> first_match h s k i p -> first_match h' s k i p.
Proof.
  intros Hr. unfold first_match.
  assert (Heq : forall q, rec_at h' q = rec_at h q).
  { intros [j|]; simpl; [by rewrite Hr|done]. }
  intros (Hi & He & Hb). repeat split; [done|by rewrite Heq|].
  intros j q Hj Hq. rewrite Heq. eauto.
Qed.

Lemma Value_spec (a : StringKeyValue.t) h e :
  rec_at h (StringKeyValue.orig a) = Some e ->
  StringKeyValue.Value a h = Ok (Value e) h.
Proof. intros He. unfold StringKeyValue.Value, bind, load_rec. by rewrite He. Qed.

(** C2: when [Get sm k] finds an entry, [Insert sm k v] returns and leaves
    the store as it is: the slice and every record, the found one with its
    value, are unchanged.  When [Get sm k] finds none, [Insert sm k v]
    leaves the slice of the map with one more element at its end, the
    pointer to a new record [(k, v)]; the elements before it and the
    records they designate are as they were.  On a new empty map,
    [Insert "a" "1"], [Insert "a" "2"], [Get "a"] finds a pair of value
    ["1"]. *)
Theorem Insert_keeps_existing_or_appends h sm k v :
  (forall a, eval (Get sm k) h = Some (a, true) -> Insert sm k v h = Ok tt h)
  /\ (forall a, eval (Get sm k) h = Some (a, false) ->
      exists c s es,
        orig sm = Some c /\ slices h !! c = Some s /\ entries h s = Some es
        /\ let h' := {| recs := recs h ++ [{| Key := k; Value := v |}];
                        slices := <[c := s ++ [Some (length (recs h))]]> (slices h) |} in
           Insert sm k v h = Ok tt h'
           /\ contents h' sm = Some (es ++ [{| Key := k; Value := v |}]))
  /\ (forall h0,
      eval (m <- NewStringMap ∅ [] ;;
            Insert m "a" "1" ;;;
            Insert m "a" "2" ;;;
            r <- Get m "a" ;;
            x <- StringKeyValue.Value (fst r) ;;
            ret (x, snd r)) h0
      = Some ("1"%string, true)).
Proof.
  split; [|split].
  - intros a Ha. apply Get_eval_inv in Ha as (HG & _).
    by apply (Insert_present _ _ _ _ a).
  - intros a Ha. apply Get_eval_inv in Ha as (HG & c & s & Hsm & Hc & HL).
    apply Get_loop_absent_inv in HL as (-> & es & Hes & Hall).
    exists c, s, es. repeat split; [done..| |].
    + by apply (Insert_absent _ _ _ _ _ _ {| StringKeyValue.orig := nil |}).
    + unfold contents. rewrite Hsm. cbn [slices].
      rewrite list_lookup_insert_eq by (by eapply lookup_lt_Some).
      apply entries_Forall2. apply Forall2_app.
      * apply entries_Forall2.
        by apply (entries_alloc h _ [{| Key := k; Value := v |}]).
      * constructor; [|constructor]. simpl. by apply list_lookup_middle.
  - intros h0. unfold eval. unfold bind at 1.
    rewrite NewStringMap_empty_run.
    set (c := length (slices h0)). set (m := {| orig := Some c |}).
    set (h1 := {| recs := recs h0; slices := slices h0 ++ [[]] |}).
    assert (Hc1 : slices h1 !! c = Some []) by (by apply list_lookup_middle).
    assert (HG1 : Get m "a" h1 = Ok ({| StringKeyValue.orig := nil |}, false) h1).
    { by apply (Get_run _ c []). }
    unfold bind at 1. rewrite (Insert_absent m c [] "a" "1" h1 _ eq_refl Hc1 HG1).
    simpl app. cbn [recs slices h1].
    set (p := Some (length (recs h0))).
    set (h2 := {| recs := _; slices := _ |}).
    assert (Hc2 : slices h2 !! c = Some [p]).
    { apply list_lookup_insert_eq. by eapply lookup_lt_Some. }
    assert (Hp : rec_at h2 p = Some {| Key := "a"; Value := "1" |}).
    { by apply list_lookup_middle. }
    assert (Hm : first_match h2 [p] "a" 0 p).
    { apply first_match_here. eexists. by split. }
    assert (HG2 : Get m "a" h2 = Ok ({| StringKeyValue.orig := p |}, true) h2).
    { apply (Get_run _ c [p]); [done..|]. by apply (Get_loop_first_match _ _ _ 0%nat). }
    clearbody h2.
    unfold bind at 1. rewrite (Insert_present m "a" "2" h2 _ HG2).
    unfold bind at 1. rewrite HG2. unfold bind. cbn [fst snd].
    by rewrite (Value_spec {| StringKeyValue.orig := p |} _ _ Hp).
Qed.

(** [Upsert] on a key [Get] finds: the record of the found pair gets the
    value, and the pair is found again with it. *)
Lemma Upsert_present_after sm k v h (a : StringKeyValue.t) :
  Get sm k h = Ok (a, true) h ->
  exists i e,
    StringKeyValue.orig a = Some i /\ recs h !! i = Some e /\ Key e = k
    /\ let h' := {| recs := <[i := {| Key := k; Value := v |}]> (recs h);
                    slices := slices h |} in
       Upsert sm k v h = Ok tt h'
       /\ Get sm k h' = Ok (a, true) h'
       /\ StringKeyValue.Value a h' = Ok v h'.
Proof.
  intros HG. destruct (Get_inv _ _ _ _ _ HG) as (_ & c & s & Hsm & Hc & HL).
  destruct (Get_loop_found_inv _ _ _ _ HL) as [i0 Hm].
  destruct (first_match_rec _ _ _ _ _ Hm) as (i & e & Ha & Hi & Hk).
  exists i, e. subst k. repeat split; [done..| | |].
  - by apply (Upsert_present _ _ _ _ a).
  - apply (Get_run _ c s); [done..|]. destruct a as [pa]. simpl in *.
    apply (Get_loop_first_match _ _ _ i0).
    by apply (first_match_set_Value h _ i e v).
  - apply (Value_spec a _ {| Key := Key e; Value := v |}). rewrite Ha. simpl.
    apply list_lookup_insert_eq. by eapply lookup_lt_Some.
Qed.

(** C7: when [Get sm k] finds a pair, [Upsert sm k v] writes [v] to the
    value of the record that pair designates, in place: the slice of the
    map and every other record are unchanged, and the pair is found again,
    now with value [v].  When [Get sm k] finds none, [Upsert sm k v] leaves
    the slice with one more element at its end, the pointer to a new record
    [(k, v)].  On a new empty map, [Upsert "a" "1"], [Upsert "a" "2"],
    [Get "a"] finds a pair of value ["2"]. *)
Theorem Upsert_updates_in_place_or_appends h sm k v :
  (forall a, eval (Get sm k) h = Some (a, true) ->
     exists i e,
       StringKeyValue.orig a = Some i /\ recs h !! i = Some e /\ Key e = k
       /\ let h' := {| recs := <[i := {| Key := k; Value := v |}]> (recs h);
                       slices := slices h |} in
          Upsert sm k v h = Ok tt h'
          /\ Get sm k h' = Ok (a, true) h'
          /\ StringKeyValue.Value a h' = Ok v h')
  /\ (forall a, eval (Get sm k) h = Some (a, false) ->
      exists c s es,
        orig sm = Some c /\ slices h !! c = Some s /\ entries h s = Some es
        /\ let h' := {| recs := recs h ++ [{| Key := k; Value := v |}];
                        slices := <[c := s ++ [Some (length (recs h))]]> (slices h) |} in
           Upsert sm k v h = Ok tt h'
           /\ contents h' sm = Some (es ++ [{| Key := k; Value := v |}]))
  /\ (forall h0,
      eval (m <- NewStringMap ∅ [] ;;
            Upsert m "a" "1" ;;;
            Upsert m "a" "2" ;;;
            r <- Get m "a" ;;
            x <- StringKeyValue.Value (fst r) ;;
            ret (x, snd r)) h0
      = Some ("2"%string, true)).
Proof.
  split; [|split].
  - intros a Ha. apply Get_eval_inv in Ha as (HG & _).
    by apply Upsert_present_after.
  - intros a Ha. apply Get_eval_inv in Ha as (HG & c & s & Hsm & Hc & HL).
    apply Get_loop_absent_inv in HL as (-> & es & Hes & Hall).
    exists c, s, es. repeat split; [done..| |].
    + by apply (Upsert_absent _ _ _ _ _ _ {| StringKeyValue.orig := nil |}).
    + unfold contents. rewrite Hsm. cbn [slices].
      rewrite list_lookup_insert_eq by (by eapply lookup_lt_Some).
      apply entries_Forall2. apply Forall2_app.
      * apply entries_Forall2.
        by apply (entries_alloc h _ [{| Key := k; Value := v |}]).
      * constructor; [|constructor]. simpl. by apply list_lookup_middle.
  - intros h0. unfold eval. unfold bind at 1.
    rewrite NewStringMap_empty_run.
    set (c := length (slices h0)). set (m := {| orig := Some c |}).
    set (h1 := {| recs := recs h0; slices := slices h0 ++ [[]] |}).
    assert (Hc1 : slices h1 !! c = Some []) by (by apply list_lookup_middle).
    assert (HG1 : Get m "a" h1 = Ok ({| StringKeyValue.orig := nil |}, false) h1).
    { by apply (Get_run _ c []). }
    unfold bind at 1. rewrite (Upsert_absent m c [] "a" "1" h1 _ eq_refl Hc1 HG1).
    simpl app. cbn [recs slices h1].
    set (p := Some (length (recs h0))).
    set (h2 := {| recs := _; slices := _ |}).
    assert (Hc2 : slices h2 !! c = Some [p]).
    { apply list_lookup_insert_eq. by eapply lookup_lt_Some. }
    assert (Hp : rec_at h2 p = Some {| Key := "a"; Value := "1" |}).
    { by apply list_lookup_middle. }
    assert (Hm : first_match h2 [p] "a" 0 p).
    { apply first_match_here. eexists. by split. }
    assert (HG2 : Get m "a" h2 = Ok ({| StringKeyValue.orig := p |}, true) h2).
    { apply (Get_run _ c [p]); [done..|]. by apply (Get_loop_first_match _ _ _ 0%nat). }
    clearbody h2.
    destruct (Upsert_present_after m "a" "2" h2 _ HG2)
      as (i & e & _ & _ & _ & HU & HG3 & HV).
    unfold bind at 1. rewrite HU.
    unfold bind at 1. rewrite HG3. unfold bind. cbn [fst snd].
    by rewrite HV.
Qed.

(** The records a swap-remove leaves in view. *)
Lemma entries_swap_remove h s es x i :
  entries h s = Some es -> last s = Some x ->
  exists ex, last es = Some ex
    /\ entries h (take (length s - 1) (<[i := x]> s))
       = Some (take (length es - 1) (<[i := ex]> es)).
Proof.
  intros Hes Hlast. pose proof (entries_length _ _ _ Hes) as Hlen.
  apply entries_Forall2 in Hes.
  pose proof (Forall2_last _ _ _ Hes) as Hl. rewrite Hlast in Hl.
  inversion Hl as [x' ex Hx Heq1 Heq2|]; subst.
  exists ex. split; [done|]. apply entries_Forall2. rewrite Hlen.
  by apply Forall2_take, Forall2_insert.
Qed.

(** The swap-remove of the first match of [k] takes exactly one record of
    key [k] out of view. *)
Lemma swap_remove_filter_key h s es k i p ex :
  entries h s = Some es -> first_match h s k i p -> last es = Some ex ->
  length (filter (fun e => Key e = k) es)
  = S (length (filter (fun e => Key e = k)
                 (take (length es - 1) (<[i := ex]> es)))).
Proof.
  intros Hes (Hi & (e & He & Hk) & _) Hlast.
  pose proof (entries_length _ _ _ Hes) as Hlen.
  apply entries_Forall2 in Hes.
  destruct (Forall2_lookup_l _ _ _ _ _ Hes Hi) as (e' & Hi' & He').
  assert (e' = e) as -> by congruence.
  assert (Hlt : (i < length es)%nat) by (by eapply lookup_lt_Some).
  pose proof (filter_Permutation (fun e => Key e = k) _ _
                (delete_Permutation es i e Hi')) as H1.
  rewrite filter_cons_True in H1 by done.
  pose proof (filter_Permutation (fun e => Key e = k) _ _
                (swap_remove_Permutation es i ex Hlt Hlast)) as H2.
  apply Permutation_length in H1. apply Permutation_length in H2.
  rewrite H1, H2. done.
Qed.

(** C3, as amended: when [Get sm k] finds a pair, it is the first element
    of the slice with the key [k], at some index [i]; [Delete sm k] returns
    [true] and leaves the slice with the last element written to slot [i]
    and cut by one, so one element shorter, and no record touched.  On a
    slice all elements of which designate records, [Get sm k] then finds
    nothing when the key [k] occurred once (no other element has it,
    whatever the other keys are), and still finds a pair when it occurred
    more than once.  When [Get sm k] finds no pair, [Delete sm k] returns
    [false] and leaves the store as it is. *)
Theorem Delete_swap_removes_first_match h sm k :
  (forall a, eval (Get sm k) h = Some (a, true) ->
     exists c s i x,
       orig sm = Some c /\ slices h !! c = Some s
       /\ first_match h s k i (StringKeyValue.orig a) /\ last s = Some x
       /\ let s' := take (length s - 1) (<[i := x]> s) in
          let h' := {| recs := recs h; slices := <[c := s']> (slices h) |} in
          Delete sm k h = Ok true h'
          /\ (length s' + 1)%nat = length s
          /\ forall es, entries h s = Some es ->
               (length (filter (fun e => Key e = k) es) = 1%nat ->
                  Get sm k h' = Ok ({| StringKeyValue.orig := nil |}, false) h')
               /\ (length (filter (fun e => Key e = k) es) <> 1%nat ->
                  exists a', Get sm k h' = Ok (a', true) h'))
  /\ (forall a, eval (Get sm k) h = Some (a, false) ->
       Delete sm k h = Ok false h).
Proof.
  split.
  - intros a Ha. apply Get_eval_inv in Ha as (HG & c & s & Hsm & Hc & HL).
    destruct (Get_loop_found_inv _ _ _ _ HL) as [i Hm].
    pose proof Hm as (Hi & _).
    pose proof (lookup_lt_Some _ _ _ Hi) as Hlt.
    destruct (lookup_lt_is_Some_2 s (pred (length s))) as [x Hx]; [lia|].
    rewrite <- last_lookup in Hx.
    exists c, s, i, x. do 4 (split; [done|]). cbv zeta. split; [|split].
    + unfold Delete, bind. rewrite Hsm, (load_slice_Some _ _ _ Hc).
      by apply (Delete_loop_found sm c s x k h Hsm Hc Hx s [] i
                  (StringKeyValue.orig a)).
    + apply swap_remove_length. lia.
    + intros es Hes.
      destruct (entries_swap_remove h s es x i Hes Hx) as (ex & Hlast & Hes').
      pose proof (swap_remove_filter_key h s es k i _ ex Hes Hm Hlast) as Hcount.
      set (s' := take (length s - 1) (<[i := x]> s)) in *.
      set (es' := take (length es - 1) (<[i := ex]> es)) in *.
      set (h' := {| recs := recs h; slices := <[c := s']> (slices h) |}).
      assert (Hs' : slices h' !! c = Some s').
      { cbn [slices h']. apply list_lookup_insert_eq. by eapply lookup_lt_Some. }
      assert (Hes'' : entries h' s' = Some es').
      { by rewrite (entries_same_recs h). }
      destruct (entries_match_or_absent h' s' es' k Hes'')
        as [Hall|(i' & p' & Hm')].
      * assert (Hnil : filter (fun e => Key e = k) es' = []).
        { destruct (filter (fun e => Key e = k) es') as [|y t] eqn:E; [done|].
          assert (Hy : y ∈ filter (fun e => Key e = k) es') by (rewrite E; left).
          apply list_elem_of_filter in Hy as [Hyk Hy].
          rewrite Forall_forall in Hall. by destruct (Hall y Hy). }
        rewrite Hnil in Hcount. simpl in Hcount. split; [|done].
        intros _. apply (Get_run _ c s'); [done..|].
        by apply (Get_loop_absent _ _ _ es').
      * assert (HG' : Get sm k h' = Ok ({| StringKeyValue.orig := p' |}, true) h').
        { apply (Get_run _ c s'); [done..|].
          by apply (Get_loop_first_match _ _ _ i'). }
        split; [|by eauto]. intros Hone. exfalso.
        rewrite Hone in Hcount. injection Hcount as Hcount.
        symmetry in Hcount. apply nil_length_inv in Hcount.
        destruct Hm' as (Hi' & (e' & He' & Hk') & _).
        apply entries_Forall2 in Hes''.
        destruct (Forall2_lookup_l _ _ _ _ _ Hes'' Hi') as (e'' & Hi'' & He'').
        assert (e'' = e') as -> by congruence.
        apply (filter_nil_not_elem_of _ _ e' Hcount Hk').
        by eapply list_elem_of_lookup_2.
  - intros a Ha. apply Get_eval_inv in Ha as (HG & c & s & Hsm & Hc & HL).
    apply Get_loop_absent_inv in HL as (_ & es & Hes & Hall).
    unfold Delete, bind. rewrite Hsm, (load_slice_Some _ _ _ Hc).
    by apply (Delete_loop_absent _ _ _ _ _ es).
Qed.

End StringMapOperations.

(** ** StringMap: Sort *)
Section StringMapSort.
Import otlpcommon KV StringMap.
Implicit Types (h : heap) (s : list ptr) (es : list StringKeyValue)
  (k v : string) (p : ptr) (sm : StringMap.t) (c : nat).

(** Sorting related lists by keys that agree gives related lists. *)
Lemma SliceStable_insert_Forall2 {A B} (R : A -> B -> Prop)
    (keyA : A -> string) (keyB : B -> string) x y l l' :
  (forall a b, R a b -> keyA a = keyB b) ->
  R x y -> Forall2 R l l' ->
  Forall2 R (SliceStable_insert (less_key keyA) x l)
            (SliceStable_insert (less_key keyB) y l').
Proof.
  intros Hkey Hxy. induction 1 as [|a b l l' Hab Hl IH]; simpl.
  - by repeat constructor.
  - unfold less_key at 1 3. rewrite (Hkey _ _ Hab), (Hkey _ _ Hxy).
    destruct (String.ltb (keyB b) (keyB y)); by repeat constructor.
Qed.

Lemma SliceStable_Forall2 {A B} (R : A -> B -> Prop)
    (keyA : A -> string) (keyB : B -> string) l l' :
  (forall a b, R a b -> keyA a = keyB b) ->
  Forall2 R l l' ->
  Forall2 R (SliceStable (less_key keyA) l) (SliceStable (less_key keyB) l').
Proof.
  intros Hkey. induction 1 as [|a b l l' Hab Hl IH]; simpl; [constructor|].
  by apply SliceStable_insert_Forall2.
Qed.

Lemma key_at_rec h p e : rec_at h p = Some e -> key_at h p = Key e.
Proof. intros He. unfold key_at. by rewrite He. Qed.

(** The records of the sorted slice are the sorted records. *)
Lemma entries_SliceStable h s es :
  entries h s = Some es ->
  entries h (SliceStable (Sort_less h) s) = Some (SliceStable (less_key Key) es).
Proof.
  rewrite !entries_Forall2. apply SliceStable_Forall2. apply key_at_rec.
Qed.

Lemma entries_forallb h s es :
  entries h s = Some es ->
  forallb (fun p => bool_decide (is_Some (rec_at h p))) s = true.
Proof.
  rewrite entries_Forall2. induction 1 as [|p e s es Hp _ IH]; simpl; [done|].
  rewrite IH, andb_true_r. apply bool_decide_eq_true. by rewrite Hp.
Qed.

Lemma forallb_entries h s :
  forallb (fun p => bool_decide (is_Some (rec_at h p))) s = true ->
  exists es, entries h s = Some es.
Proof.
  induction s as [|p s IH]; cbn [forallb]; [by exists []|].
  intros [Hp Hs]%andb_true_iff. apply bool_decide_eq_true in Hp as [e He].
  destruct (IH Hs) as [es Hes]. exists (e :: es).
  by rewrite entries_cons, He, Hes.
Qed.

Lemma SliceStable_short {A} (less : A -> A -> bool) (l : list A) :
  (length l < 2)%nat -> SliceStable less l = l.
Proof. destruct l as [|a [|b l]]; simpl; [done..|lia]. Qed.

Lemma Sort_spec sm c s es h :
  orig sm = Some c -> slices h !! c = Some s -> entries h s = Some es ->
  Sort sm h
  = Ok sm {| recs := recs h;
             slices := <[c := SliceStable (Sort_less h) s]> (slices h) |}.
Proof.
  intros Hsm Hc Hes. unfold Sort. unfold bind at 1. rewrite Hsm.
  rewrite (load_slice_Some _ _ _ Hc). unfold bind.
  destruct (decide (length s < 2)%nat) as [Hshort|Hlong].
  - unfold ret. rewrite SliceStable_short by done.
    rewrite list_insert_id by done. by destruct h.
  - rewrite (entries_forallb _ _ _ Hes).
    by rewrite (store_slice_Some _ _ _ _ Hc).
Qed.

Lemma Sort_inv sm sm' h h' :
  Sort sm h = Ok sm' h' ->
  sm' = sm
  /\ exists c s,
       orig sm = Some c /\ slices h !! c = Some s
       /\ (h' = h
           \/ (exists es, entries h s = Some es)
              /\ h' = {| recs := recs h;
                         slices := <[c := SliceStable (Sort_less h) s]> (slices h) |}).
Proof.
  unfold Sort. unfold bind at 1. unfold load_slice.
  destruct (orig sm) as [c|]; [|done].
  destruct (slices h !! c) as [s|] eqn:Hc; [|done]. unfold bind.
  destruct (decide (length s < 2)%nat) as [Hshort|Hlong].
  - intros [= <- <-]. split; [done|]. exists c, s. auto.
  - destruct (forallb _ s) eqn:Hall; [|done].
    rewrite (store_slice_Some _ _ _ _ Hc). intros [= <- <-].
    split; [done|]. exists c, s. repeat split; [done|].
    right. split; [by apply forallb_entries|done].
Qed.

End StringMapSort.

(** ** StringMap: construction from a Go map *)
Section StringMapConstruction.
Import otlpcommon KV StringMap.
Implicit Types (h : heap) (s : list ptr) (es : list StringKeyValue)
  (k v : string) (p : ptr) (sm : StringMap.t) (c : nat).

Lemma insert_at_middle {A} (l1 l2 : list A) x y :
  <[length l1 := y]> (l1 ++ x :: l2) = l1 ++ y :: l2.
Proof.
  replace (length l1) with (length l1 + 0)%nat by lia. by rewrite insert_app_r.
Qed.

Lemma store_rec_middle h (L R : list StringKeyValue) x f :
  recs h = L ++ x :: R ->
  store_rec (Some (length L)) f h
  = Ok tt {| recs := L ++ f x :: R; slices := slices h |}.
Proof.
  intros Hr. unfold store_rec. rewrite Hr.
  rewrite list_lookup_middle by done. by rewrite insert_at_middle.
Qed.

(** The record [range] writes for an entry of the map. *)
Local Abbreviation pair_rec :=
  (fun kv : string * string => {| Key := kv.1; Value := kv.2 |}).

Lemma NewStringMap_loop_spec origs kvs : forall ix (W : list ptr) L h,
  recs h = L ++ replicate (length kvs) StringKeyValue_zero ->
  length L = (origs + ix)%nat -> length W = ix ->
  NewStringMap_loop origs kvs ix (W ++ replicate (length kvs) nil) h
  = Ok (W ++ ((fun j => Some (origs + j)%nat) <$> seq ix (length kvs)))
       {| recs := L ++ (pair_rec <$> kvs); slices := slices h |}.
Proof.
  induction kvs as [|[k v] kvs IH]; intros ix W L h Hr HL HW.
  - simpl in *. unfold ret. destruct h as [r sl]. simpl in *. by subst.
  - subst ix. cbn [length replicate] in Hr. cbn [NewStringMap_loop length replicate].
    rewrite decide_True by (rewrite length_app; simpl; lia).
    rewrite insert_at_middle, <- HL.
    unfold bind at 1. unfold index at 1.
    rewrite list_lookup_middle by done.
    unfold bind at 1.
    rewrite (store_rec_middle h L _ StringKeyValue_zero (set_Key k) Hr).
    unfold bind at 1. unfold index at 1.
    rewrite list_lookup_middle by done.
    unfold bind at 1.
    rewrite (store_rec_middle
               {| recs := L ++ set_Key k StringKeyValue_zero
                              :: replicate (length kvs) StringKeyValue_zero;
                  slices := slices h |}
               L _ (set_Key k StringKeyValue_zero) (set_Value v) eq_refl).
    cbn [recs slices set_Key set_Value Key Value].
    rewrite (cons_middle (Some (length L)) W), app_assoc.
    rewrite (IH (S (length W)) (W ++ [Some (length L)])
               (L ++ [{| Key := k; Value := v |}])).
    + rewrite <- !app_assoc. simpl. by rewrite HL.
    + simpl. by rewrite <- app_assoc.
    + rewrite length_app. simpl. lia.
    + rewrite length_app. simpl. lia.
Qed.

Lemma range_order_length attrMap order :
  range_order attrMap order -> length order = size attrMap.
Proof. intros Hp. unfold range_order in Hp. by rewrite Hp, length_map_to_list. Qed.

(** [NewStringMap] allocates one record per entry, in the order of
    iteration, and a slice of the pointers to them. *)
Lemma NewStringMap_spec attrMap order h :
  range_order attrMap order ->
  NewStringMap attrMap order h
  = Ok {| orig := Some (length (slices h)) |}
       {| recs := recs h ++ (pair_rec <$> order);
          slices := slices h
            ++ [(fun j => Some (length (recs h) + j)%nat) <$> seq 0 (length order)] |}.
Proof.
  intros Hord. pose proof (range_order_length _ _ Hord) as Hlen.
  unfold NewStringMap. destruct (decide (size attrMap = 0%nat)) as [Hz|Hnz].
  - rewrite Hz in Hlen. apply nil_length_inv in Hlen as ->. simpl.
    unfold bind, alloc_slice, ret. by rewrite app_nil_r.
  - unfold bind at 1. unfold alloc_recs. rewrite <- Hlen.
    unfold bind at 1.
    rewrite (NewStringMap_loop_spec (length (recs h)) order 0 [] (recs h));
      [done| |simpl; lia|done].
    done.
Qed.

(** The pointers to a run of fresh records designate those records. *)
Lemma entries_fresh_run h (L X : list StringKeyValue) :
  recs h = L ++ X ->
  entries h ((fun j => Some (length L + j)%nat) <$> seq 0 (length X)) = Some X.
Proof.
  intros Hr. apply entries_Forall2. apply Forall2_same_length_lookup_2.
  - by rewrite length_fmap, length_seq.
  - intros i p e Hp He. apply list_lookup_fmap_Some in Hp as (j & -> & Hj).
    apply lookup_seq in Hj as [-> Hj]. simpl. rewrite Hr.
    by rewrite lookup_app_r, Nat.add_comm, Nat.add_sub by lia.
Qed.

Lemma NewStringMap_unique_keys attrMap order h :
  range_order attrMap order ->
  exists sm h', NewStringMap attrMap order h = Ok sm h' /\ unique_keys h' sm
    /\ contents h' sm = Some (pair_rec <$> order).
Proof.
  intros Hord. eexists _, _. split; [by apply NewStringMap_spec|].
  assert (Hc : contents
    {| recs := recs h ++ (pair_rec <$> order);
       slices := slices h
         ++ [(fun j => Some (length (recs h) + j)%nat) <$> seq 0 (length order)] |}
    {| orig := Some (length (slices h)) |} = Some (pair_rec <$> order)).
  { unfold contents. cbn [orig slices].
    rewrite list_lookup_middle by done.
    rewrite <- (length_fmap pair_rec order). by apply entries_fresh_run. }
  split; [|done]. exists (pair_rec <$> order). split; [done|].
  rewrite <- list_fmap_compose.
  unfold range_order in Hord.
  assert (Heq : (Key ∘ pair_rec <$> order) = order.*1).
  { apply list_fmap_ext. by intros i [k v] _. }
  rewrite Heq, Hord. apply NoDup_fst_map_to_list.
Qed.

End StringMapConstruction.

(** ** StringMap: the keys of a map stay pairwise different *)
Section StringMapInvariant.
Import otlpcommon KV StringMap.
Implicit Types (h : heap) (s : list ptr) (es : list StringKeyValue)
  (k v : string) (p : ptr) (sm : StringMap.t) (c : nat).

Lemma Delete_loop_inv sm k h b h' : forall rest i,
  Delete_loop sm i rest k h = Ok b h' ->
  (b = false /\ h' = h)
  \/ (b = true /\ exists j p, first_match h rest k j p
                   /\ Delete_at sm (i + j) h = Ok tt h').
Proof.
  induction rest as [|a rest IH]; intros i; cbn [Delete_loop].
  - intros [= <- <-]. by left.
  - unfold bind at 1. unfold load_rec.
    destruct (rec_at h a) as [e|] eqn:Ha; [|done].
    destruct (String.eqb_spec (Key e) k) as [Hk|Hk].
    + unfold bind. destruct (Delete_at sm i h) as [[] h1|] eqn:HD; [|done].
      intros [= <- <-]. right. split; [done|]. exists 0%nat, a.
      split; [apply first_match_here; eauto|]. by rewrite Nat.add_0_r.
    + intros H. destruct (IH _ H) as [?|(-> & j & p & Hm & HD)]; [by left|].
      right. split; [done|]. exists (S j), p.
      split; [apply first_match_later; eauto|].
      by replace (i + S j)%nat with (S i + j)%nat by lia.
Qed.

(** Every call of the interface has one of the [effect]s. *)
Lemma step_effect h h' : step h h' -> effect h h'.
Proof.
  intros [k v akv H|akv v H|attrMap order sm Hord H|sm k v H|sm k v H
         |sm k v H|sm k b H|sm sm' H].
  - unfold StringKeyValue.NewStringKeyValue, bind, alloc_rec, ret in H.
    injection H as _ <-. constructor.
  - unfold StringKeyValue.SetValue, store_rec in H.
    destruct (StringKeyValue.orig akv) as [i|]; [|done].
    destruct (recs h !! i) as [e|] eqn:Hi; [|done].
    injection H as <-. by apply (effect_set_Value h i e v).
  - rewrite (NewStringMap_spec _ _ _ Hord) in H. injection H as _ <-.
    by apply (effect_new_map h attrMap).
  - unfold Insert in H. unfold bind at 1 in H.
    destruct (Get sm k h) as [[a b] h1|] eqn:HG; [|done].
    destruct (Get_inv _ _ _ _ _ HG) as (-> & c & s & Hsm & Hc & HL).
    destruct b; cbn [snd negb] in H.
    + injection H as <-. constructor.
    + rewrite (append_new_spec _ _ _ _ _ _ Hsm Hc) in H. injection H as <-.
      apply Get_loop_absent_inv in HL as (_ & es & Hes & Hall).
      by apply (effect_append h c s es).
  - unfold Update in H. unfold bind at 1 in H.
    destruct (Get sm k h) as [[a b] h1|] eqn:HG; [|done].
    destruct (Get_inv _ _ _ _ _ HG) as (-> & c & s & Hsm & Hc & HL).
    destruct b; cbn [fst snd] in H.
    + destruct (Get_loop_found_inv _ _ _ _ HL) as [i0 Hm].
      destruct (first_match_rec _ _ _ _ _ Hm) as (i & e & Ha & Hi & Hk).
      rewrite (SetValue_spec a i e v h Ha Hi) in H. injection H as <-.
      by constructor.
    + injection H as <-. constructor.
  - unfold Upsert in H. unfold bind at 1 in H.
    destruct (Get sm k h) as [[a b] h1|] eqn:HG; [|done].
    destruct (Get_inv _ _ _ _ _ HG) as (-> & c & s & Hsm & Hc & HL).
    destruct b; cbn [fst snd] in H.
    + destruct (Get_loop_found_inv _ _ _ _ HL) as [i0 Hm].
      destruct (first_match_rec _ _ _ _ _ Hm) as (i & e & Ha & Hi & Hk).
      rewrite (SetValue_spec a i e v h Ha Hi) in H. injection H as <-.
      by constructor.
    + rewrite (append_new_spec _ _ _ _ _ _ Hsm Hc) in H. injection H as <-.
      apply Get_loop_absent_inv in HL as (_ & es & Hes & Hall).
      by apply (effect_append h c s es).
  - unfold Delete, bind, load_slice in H.
    destruct (orig sm) as [c|] eqn:Hsm; [|done].
    destruct (slices h !! c) as [s|] eqn:Hc; [|done].
    apply Delete_loop_inv in H as [[_ ->]|(_ & j & p & Hm & HD)]; [constructor|].
    pose proof Hm as (Hj & _). pose proof (lookup_lt_Some _ _ _ Hj) as Hlt.
    destruct (lookup_lt_is_Some_2 s (pred (length s))) as [x Hx]; [lia|].
    rewrite <- last_lookup in Hx. simpl in HD.
    rewrite (Delete_at_spec sm c s x j h Hsm Hc Hx Hlt) in HD.
    injection HD as <-. by constructor.
  - apply Sort_inv in H as (_ & c & s & Hsm & Hc & [->|[[es Hes] ->]]).
    + constructor.
    + by apply (effect_sort h c s es).
Qed.

Lemma unique_keys_inv h sm :
  unique_keys h sm ->
  exists c s es, orig sm = Some c /\ slices h !! c = Some s
    /\ entries h s = Some es /\ NoDup (Key <$> es).
Proof.
  intros (es & Hc & Hnd). unfold contents in Hc.
  destruct (orig sm) as [c|]; [|done].
  destruct (slices h !! c) as [s|] eqn:Hs; [|done]. eauto 8.
Qed.

Lemma unique_keys_intro h sm c s es :
  orig sm = Some c -> slices h !! c = Some s -> entries h s = Some es ->
  NoDup (Key <$> es) -> unique_keys h sm.
Proof.
  intros Hsm Hs Hes Hnd. exists es. split; [|done].
  unfold contents. by rewrite Hsm, Hs.
Qed.

(** No effect breaks the uniqueness of the keys of a map. *)
Lemma effect_unique_keys h h' sm0 :
  effect h h' -> unique_keys h sm0 -> unique_keys h' sm0.
Proof.
  intros Heff Hu.
  destruct (unique_keys_inv _ _ Hu) as (c0 & s0 & es0 & Hsm & Hs0 & Hes0 & Hnd).
  pose proof (lookup_lt_Some _ _ _ Hs0) as Hlt.
  destruct Heff as [|k v|c s es k v Hc Hes Hall|i e v Hi|c s i x Hc Hx Hi
                   |c s es Hc Hes|attrMap order Hord].
  - done.
  - apply (unique_keys_intro _ _ c0 s0 es0); [done..| |done].
    by apply (entries_alloc h _ [{| Key := k; Value := v |}]).
  - destruct (decide (c0 = c)) as [->|Hne].
    + assert (s0 = s) as -> by congruence. assert (es0 = es) as -> by congruence.
      apply (unique_keys_intro _ _ c (s ++ [Some (length (recs h))])
               (es ++ [{| Key := k; Value := v |}])); [done| | |].
      * cbn [slices]. by apply list_lookup_insert_eq.
      * apply entries_Forall2. apply Forall2_app.
        -- apply entries_Forall2.
           by apply (entries_alloc h _ [{| Key := k; Value := v |}]).
        -- constructor; [|constructor]. simpl. by apply list_lookup_middle.
      * rewrite fmap_app. apply NoDup_app. split; [done|]. split.
        -- intros y Hy Hyk. apply list_elem_of_fmap in Hy as (e & -> & He).
           apply list_elem_of_singleton in Hyk.
           rewrite Forall_forall in Hall. by apply (Hall e).
        -- apply NoDup_singleton.
    + apply (unique_keys_intro _ _ c0 s0 es0); [done| | |done].
      * cbn [slices]. by rewrite list_lookup_insert_ne.
      * by apply (entries_alloc h _ [{| Key := k; Value := v |}]).
  - destruct (entries_set_Value h
      {| recs := <[i := {| Key := Key e; Value := v |}]> (recs h);
         slices := slices h |} i e v s0 es0 eq_refl Hi Hes0) as (es' & Hes' & Hk).
    apply (unique_keys_intro _ _ c0 s0 es'); [done..|]. by rewrite Hk.
  - destruct (decide (c0 = c)) as [->|Hne].
    + assert (s0 = s) as -> by congruence.
      destruct (entries_swap_remove h s es0 x i Hes0 Hx) as (ex & Hlast & Hes').
      pose proof (entries_length _ _ _ Hes0) as Hlen.
      eapply (unique_keys_intro _ _ c); [done| | |].
      * cbn [slices]. by apply list_lookup_insert_eq.
      * rewrite <- Hes'. by apply entries_same_recs.
      * rewrite fmap_take, list_fmap_insert, <- (length_fmap Key es0).
        apply swap_remove_NoDup; [|by rewrite fmap_last, Hlast|done].
        rewrite length_fmap. lia.
    + apply (unique_keys_intro _ _ c0 s0 es0); [done| | |done].
      * cbn [slices]. by rewrite list_lookup_insert_ne.
      * rewrite <- Hes0. by apply entries_same_recs.
  - destruct (decide (c0 = c)) as [->|Hne].
    + assert (s0 = s) as -> by congruence. assert (es0 = es) as -> by congruence.
      eapply (unique_keys_intro _ _ c); [done| | |].
      * cbn [slices]. by apply list_lookup_insert_eq.
      * rewrite <- (entries_SliceStable h s es Hes). by apply entries_same_recs.
      * by rewrite (SliceStable_perm Key es).
    + apply (unique_keys_intro _ _ c0 s0 es0); [done| | |done].
      * cbn [slices]. by rewrite list_lookup_insert_ne.
      * rewrite <- Hes0. by apply entries_same_recs.
  - apply (unique_keys_intro _ _ c0 s0 es0); [done| | |done].
    + cbn [slices]. by apply lookup_app_l_Some.
    + by eapply entries_alloc.
Qed.

(** The slice an effect adds, if any, is that of a new map of pairwise
    different keys. *)
Lemma effect_cells h h' c :
  effect h h' -> (c < length (slices h'))%nat ->
  (c < length (slices h))%nat \/ unique_keys h' {| orig := Some c |}.
Proof.
  intros [|k v|c1 s es k v Hc Hes Hall|i e v Hi|c1 s i x Hc Hx Hi
         |c1 s es Hc Hes|attrMap order Hord]; cbn [slices];
    rewrite ?length_insert; auto.
  rewrite length_app. simpl. intros Hlt.
  destruct (decide (c < length (slices h))%nat) as [|Hge]; [by left|right].
  assert (c = length (slices h)) as -> by lia.
  destruct (NewStringMap_unique_keys attrMap order h Hord) as (sm & hn & HN & Hu & _).
  rewrite (NewStringMap_spec _ _ _ Hord) in HN. by injection HN as <- <-.
Qed.

Lemma reachable_unique_keys h :
  reachable h ->
  forall c, (c < length (slices h))%nat -> unique_keys h {| orig := Some c |}.
Proof.
  unfold reachable. intros Hreach. revert h Hreach.
  apply (rtc_ind_r (fun h => forall c, (c < length (slices h))%nat ->
                               unique_keys h {| orig := Some c |})).
  - simpl. lia.
  - intros h1 h2 Hreach Hstep IH c Hc. apply step_effect in Hstep.
    destruct (effect_cells _ _ _ Hstep Hc) as [Hold|Hnew]; [|done].
    apply (effect_unique_keys h1); [done|]. by apply IH.
Qed.

(** On a map all elements of which designate records, the four writers
    return. *)
Lemma writers_return h sm c s es k v :
  orig sm = Some c -> slices h !! c = Some s -> entries h s = Some es ->
  (exists h', Insert sm k v h = Ok tt h')
  /\ (exists h', Update sm k v h = Ok tt h')
  /\ (exists h', Upsert sm k v h = Ok tt h')
  /\ (exists b h', Delete sm k h = Ok b h').
Proof.
  intros Hsm Hc Hes.
  destruct (entries_match_or_absent h s es k Hes) as [Hall|(i & p & Hm)].
  - assert (HG : Get sm k h = Ok ({| StringKeyValue.orig := nil |}, false) h).
    { apply (Get_run _ c s); [done..|]. by apply (Get_loop_absent _ _ _ es). }
    repeat split.
    + eexists. by apply (Insert_absent _ c s _ _ _ _ Hsm Hc HG).
    + eexists. by apply (Update_absent _ _ _ _ _ HG).
    + eexists. by apply (Upsert_absent _ c s _ _ _ _ Hsm Hc HG).
    + exists false, h. unfold Delete, bind.
      rewrite Hsm, (load_slice_Some _ _ _ Hc).
      by apply (Delete_loop_absent _ _ _ _ _ es).
  - assert (HG : Get sm k h = Ok ({| StringKeyValue.orig := p |}, true) h).
    { apply (Get_run _ c s); [done..|]. by apply (Get_loop_first_match _ _ _ i). }
    destruct (first_match_rec _ _ _ _ _ Hm) as (j & e & -> & Hj & Hk).
    pose proof Hm as (Hi & _). pose proof (lookup_lt_Some _ _ _ Hi) as Hlt.
    destruct (lookup_lt_is_Some_2 s (pred (length s))) as [x Hx]; [lia|].
    rewrite <- last_lookup in Hx.
    repeat split.
    + eexists. by apply (Insert_present _ _ _ _ _ HG).
    + eexists. by apply (Update_present _ _ _ _ _ j e HG).
    + eexists. by apply (Upsert_present _ _ _ _ _ j e HG).
    + eexists _, _. unfold Delete, bind.
      rewrite Hsm, (load_slice_Some _ _ _ Hc).
      by apply (Delete_loop_found sm c s x k h Hsm Hc Hx s [] i (Some j)).
Qed.

End StringMapInvariant.

(** ** StringMap: the claims about uniqueness of keys and about Sort *)
Section StringMapCanonical.
Import otlpcommon KV StringMap.
Implicit Types (h : heap) (s : list ptr) (es : list StringKeyValue)
  (k v : string) (p : ptr) (sm : StringMap.t) (c : nat).

(** C10: [NewStringMap], run on a Go map in any order of iteration, returns
    a map of pairwise different keys.  On a map of pairwise different keys
    each of [Insert], [Update], [Upsert] and [Delete] returns, and in the
    store it leaves every map whose keys were pairwise different still has
    pairwise different keys.  In every store reachable from the empty one by
    calls of the exported interface, every map has pairwise different
    keys. *)
Theorem key_uniqueness_is_invariant :
  (forall attrMap order h,
     range_order attrMap order ->
     exists sm h', NewStringMap attrMap order h = Ok sm h' /\ unique_keys h' sm)
  /\ (forall h sm k v,
       unique_keys h sm ->
       (exists h', Insert sm k v h = Ok tt h'
          /\ forall sm0, unique_keys h sm0 -> unique_keys h' sm0)
       /\ (exists h', Update sm k v h = Ok tt h'
          /\ forall sm0, unique_keys h sm0 -> unique_keys h' sm0)
       /\ (exists h', Upsert sm k v h = Ok tt h'
          /\ forall sm0, unique_keys h sm0 -> unique_keys h' sm0)
       /\ (exists b h', Delete sm k h = Ok b h'
          /\ forall sm0, unique_keys h sm0 -> unique_keys h' sm0))
  /\ (forall h sm c,
       reachable h -> orig sm = Some c -> (c < length (slices h))%nat ->
       unique_keys h sm).
Proof.
  split; [|split].
  - intros attrMap order h Hord.
    destruct (NewStringMap_unique_keys attrMap order h Hord)
      as (sm & h' & HN & Hu & _). eauto.
  - intros h sm k v Hu.
    destruct (unique_keys_inv _ _ Hu) as (c & s & es & Hsm & Hc & Hes & _).
    destruct (writers_return h sm c s es k v Hsm Hc Hes)
      as ((h1 & H1) & (h2 & H2) & (h3 & H3) & (b & h4 & H4)).
    repeat split.
    + exists h1. split; [done|]. intros sm0. apply effect_unique_keys.
      apply step_effect. by apply (step_Insert _ _ sm k v).
    + exists h2. split; [done|]. intros sm0. apply effect_unique_keys.
      apply step_effect. by apply (step_Update _ _ sm k v).
    + exists h3. split; [done|]. intros sm0. apply effect_unique_keys.
      apply step_effect. by apply (step_Upsert _ _ sm k v).
    + exists b, h4. split; [done|]. intros sm0. apply effect_unique_keys.
      apply step_effect. by apply (step_Delete _ _ sm k b).
  - intros h sm c Hreach Hsm Hc.
    pose proof (reachable_unique_keys h Hreach c Hc) as (es & Hes & Hnd).
    exists es. split; [|done]. unfold contents in *. by rewrite Hsm.
Qed.

Lemma contents_inv h sm es :
  contents h sm = Some es ->
  exists c s, orig sm = Some c /\ slices h !! c = Some s /\ entries h s = Some es.
Proof.
  unfold contents. destruct (orig sm) as [c|]; [|done].
  destruct (slices h !! c) as [s|] eqn:Hs; [|done]. eauto.
Qed.

Lemma contents_orig h sm sm' :
  orig sm = orig sm' -> contents h sm = contents h sm'.
Proof. intros Heq. unfold contents. by rewrite Heq. Qed.

(** [Sort] sorts the records in view of the map and leaves the other maps
    as they are. *)
Lemma Sort_contents h sm es :
  contents h sm = Some es ->
  exists h', Sort sm h = Ok sm h'
    /\ contents h' sm = Some (SliceStable (less_key Key) es)
    /\ forall sm0, orig sm0 <> orig sm -> contents h' sm0 = contents h sm0.
Proof.
  intros Hc. destruct (contents_inv _ _ _ Hc) as (c & s & Hsm & Hs & Hes).
  eexists. split; [by apply (Sort_spec sm c s es)|]. split.
  - unfold contents. rewrite Hsm. cbn [slices].
    rewrite list_lookup_insert_eq by (by eapply lookup_lt_Some).
    rewrite <- (entries_SliceStable h s es Hes). by apply entries_same_recs.
  - intros sm0 Hne. unfold contents. destruct (orig sm0) as [c0|]; [|done].
    cbn [slices]. rewrite list_lookup_insert_ne by congruence.
    destruct (slices h !! c0); [|done]. by apply entries_same_recs.
Qed.

(** C4: on a map all elements of which designate records, [Sort] returns
    the same map and leaves the store with only the slice of that map
    changed, in place, to a permutation of itself in which the elements of
    any one key keep their order; the records in view are then in ascending
    order of their keys, and a second [Sort] changes nothing.  For two maps
    of a reachable store that view the same set of key/value pairs, after
    [Sort] on both they view the same sequence of pairs. *)
Theorem Sort_stable_idempotent_canonical :
  (forall h sm es,
     contents h sm = Some es ->
     exists c s s' es',
       orig sm = Some c /\ slices h !! c = Some s
       /\ let h' := {| recs := recs h; slices := <[c := s']> (slices h) |} in
          Sort sm h = Ok sm h'
          /\ s' ≡ₚ s
          /\ (forall k, filter (fun p => key_at h p = k) s'
                        = filter (fun p => key_at h p = k) s)
          /\ contents h' sm = Some es'
          /\ ascending Key es'
          /\ Sort sm h' = Ok sm h')
  /\ (forall h sm1 sm2 es1 es2,
       reachable h ->
       contents h sm1 = Some es1 -> contents h sm2 = Some es2 ->
       (forall e, e ∈ es1 <-> e ∈ es2) ->
       exists h1 h2 es,
         Sort sm1 h = Ok sm1 h1 /\ Sort sm2 h1 = Ok sm2 h2
         /\ contents h2 sm1 = Some es /\ contents h2 sm2 = Some es).
Proof.
  split.
  - intros h sm es Hc.
    destruct (contents_inv _ _ _ Hc) as (c & s & Hsm & Hs & Hes).
    pose proof (lookup_lt_Some _ _ _ Hs) as Hlt.
    exists c, s, (SliceStable (Sort_less h) s), (SliceStable (less_key Key) es).
    do 2 (split; [done|]). cbv zeta.
    assert (Hes' : entries
      {| recs := recs h; slices := <[c := SliceStable (Sort_less h) s]> (slices h) |}
      (SliceStable (Sort_less h) s) = Some (SliceStable (less_key Key) es)).
    { rewrite <- (entries_SliceStable h s es Hes). by apply entries_same_recs. }
    split; [by apply (Sort_spec sm c s es)|].
    split; [apply (SliceStable_perm (key_at h))|].
    split; [intros k; apply (SliceStable_filter (key_at h))|].
    split.
    { unfold contents. rewrite Hsm. cbn [slices].
      by rewrite list_lookup_insert_eq. }
    split; [apply SliceStable_ascending|].
    erewrite Sort_spec; [|done| |exact Hes'].
    + cbn [recs slices].
      change (Sort_less {| recs := recs h; slices := _ |}) with (Sort_less h).
      unfold Sort_less at 1.
      rewrite (SliceStable_idempotent (key_at h)).
      by rewrite list_insert_insert_eq.
    + cbn [slices]. by apply list_lookup_insert_eq.
  - intros h sm1 sm2 es1 es2 Hreach Hc1 Hc2 Hset.
    destruct (contents_inv _ _ _ Hc1) as (c1 & s1 & Hsm1 & Hs1 & Hes1).
    destruct (contents_inv _ _ _ Hc2) as (c2 & s2 & Hsm2 & Hs2 & Hes2).
    assert (Hnd : forall sm c s es, orig sm = Some c -> slices h !! c = Some s ->
                  entries h s = Some es -> NoDup (Key <$> es)).
    { intros sm c s es Hsm Hs Hes.
      destruct (reachable_unique_keys h Hreach c) as (es' & Hes' & Hnd').
      { by eapply lookup_lt_Some. }
      unfold contents in Hes'. simpl in Hes'. rewrite Hs, Hes in Hes'.
      by injection Hes' as <-. }
    pose proof (Hnd sm1 c1 s1 es1 Hsm1 Hs1 Hes1) as Hnd1.
    pose proof (Hnd sm2 c2 s2 es2 Hsm2 Hs2 Hes2) as Hnd2.
    assert (Hperm : es1 ≡ₚ es2).
    { apply NoDup_Permutation; [by eapply NoDup_fmap_1..|done]. }
    destruct (Sort_contents h sm1 es1 Hc1) as (h1 & HS1 & Hc11 & Hother1).
    destruct (decide (orig sm2 = orig sm1)) as [Heq|Hne].
    + rewrite (contents_orig h sm2 sm1 Heq) in Hc2.
      assert (es2 = es1) as -> by congruence.
      rewrite <- (contents_orig h1 sm2 sm1 Heq) in Hc11.
      destruct (Sort_contents h1 sm2 _ Hc11) as (h2 & HS2 & Hc22 & _).
      rewrite (SliceStable_idempotent Key) in Hc22.
      exists h1, h2, (SliceStable (less_key Key) es1).
      repeat split; [done..| |done]. by rewrite <- (contents_orig h2 sm2 sm1 Heq).
    + rewrite <- (Hother1 sm2 Hne) in Hc2.
      destruct (Sort_contents h1 sm2 es2 Hc2) as (h2 & HS2 & Hc22 & Hother2).
      exists h1, h2, (SliceStable (less_key Key) es1).
      repeat split; [done..| |].
      * rewrite (Hother2 sm1) by congruence. done.
      * by rewrite (SliceStable_canonical Key es1 es2 Hperm Hnd1).
Qed.

End StringMapCanonical.

(** ** InstrumentationLibrary *)
Section InstrumentationLibraryFacts.
Import InstrumentationLibrary.

(** C9: [NewInstrumentationLibrary] returns, without touching the store, the
    instance whose pointer is nil, which is the zero-initialized instance;
    on it each of [Name], [SetName], [Version] and [SetVersion] panics, in
    every store. *)
Theorem NewInstrumentationLibrary_is_nil (h : heap) :
  exists il,
    NewInstrumentationLibrary h = Ok il h
    /\ orig il = nil /\ il = zero
    /\ forall hx : heap,
         Name il hx = Panic
         /\ (forall r, SetName il r hx = Panic)
         /\ Version il hx = Panic
         /\ (forall r, SetVersion il r hx = Panic).
Proof. exists zero. by repeat split. Qed.

End InstrumentationLibraryFacts.

(** * The properties on examples *)

(** ** AttributeValue *)
Section AttributeValueExamples.
Import otlpcommon AttributeValue.

(** The example of the comment on [AttributeValue]: [v] is made by
    [NewAttributeValueString "a string"], a copy of it is passed to [f1],
    which calls [SetInt 234]; then [v] reads [234] and has type INT. *)
Lemma setter_on_copy_example :
  let VT := proto_ValueTypes in
  let v := {| orig := Some 0%nat |} in
  let h1 := [{| Type_ := 0; StringValue := "a string"; IntValue := 0;
                DoubleValue := 0%float; BoolValue := false |}] in
  constructed [] v h1
  /\ exists h', SetInt (copy v) 234 h1 = Ok tt h'
       /\ IntVal v h' = Ok 234 h' /\ Type' v h' = Ok AttributeValueINT h'.
Proof.
  cbv zeta.
  assert (Hc : constructed (VT := proto_ValueTypes) [] {| orig := Some 0%nat |}
                 [{| Type_ := 0; StringValue := "a string"; IntValue := 0;
                     DoubleValue := 0%float; BoolValue := false |}]).
  { by apply (constructed_String _ _ _ "a string"). }
  split; [exact Hc|].
  destruct (setter_on_copy_visible_through_original _ _ _ Hc
              [{| Type_ := 0; StringValue := "a string"; IntValue := 0;
                  DoubleValue := 0%float; BoolValue := false |}]
              (copy {| orig := Some 0%nat |}) (le_n _) eq_refl)
    as (_ & HInt & _).
  destruct (HInt 234) as (h' & HS & Hobs). exists h'.
  split; [exact HS|]. by apply Hobs.
Defined.

(** A slot last set as an integer: [SetString] writes the discriminant and
    the string, the integer [7] stays where it was. *)
Lemma setters_example :
  let VT := proto_ValueTypes in
  let a := {| orig := Some 0%nat |} in
  let r := {| Type_ := 1; StringValue := ""; IntValue := 7;
              DoubleValue := 0%float; BoolValue := false |} in
  [r] !! 0%nat = Some r
  /\ SetString a "x" [r]
     = Ok tt [{| Type_ := 0; StringValue := "x"; IntValue := 7;
                 DoubleValue := 0%float; BoolValue := false |}].
Proof.
  cbv zeta. split; [reflexivity|].
  exact (proj1 (setters_overwrite_discriminant_and_matching_payload
                  (VT := proto_ValueTypes) {| orig := Some 0%nat |}
                  [{| Type_ := 1; StringValue := ""; IntValue := 7;
                      DoubleValue := 0%float; BoolValue := false |}]
                  0%nat _ eq_refl eq_refl) "x"%string).
Defined.

(** A slot of discriminant STRING ([0]) that holds a stale integer: the
    integer getter returns it. *)
Lemma getters_example :
  let a := {| orig := Some 0%nat |} in
  let r := {| Type_ := 0; StringValue := "s"; IntValue := 7;
              DoubleValue := 0%float; BoolValue := false |} in
  [r] !! 0%nat = Some r
  /\ IntVal a [r] = Ok 7 [r] /\ BoolVal a [r] = Ok false [r].
Proof.
  cbv zeta. split; [reflexivity|].
  destruct (getters_return_payload_unconditionally {| orig := Some 0%nat |}
              [{| Type_ := 0; StringValue := "s"; IntValue := 7;
                  DoubleValue := 0%float; BoolValue := false |}]
              0%nat _ eq_refl eq_refl) as (_ & HI & _ & HB).
  by split.
Defined.

Lemma NewAttributeValueSlice_example :
  0 <= 2
  /\ exists ws,
       NewAttributeValueSlice 2 []
       = Ok ws [AttributeKeyValue_zero; AttributeKeyValue_zero]
       /\ ws !! 0%nat = Some {| orig := Some 0%nat |}
       /\ ws !! 1%nat = Some {| orig := Some 1%nat |}.
Proof.
  assert (H02 : 0 <= 2) by (intros [=]).
  split; [exact H02|].
  destruct (NewAttributeValueSlice_slots_independent (VT := proto_ValueTypes)
              2 [] H02) as (ws & HN & _ & Hws & _).
  exists ws. split; [exact HN|].
  split; [apply (Hws 0%nat)|apply (Hws 1%nat)]; simpl; lia.
Defined.

End AttributeValueExamples.

(** ** StringMap *)
Section StringMapExamples.
Import otlpcommon KV StringMap Examples.

Lemma Insert_example :
  eval (Get abc_map "b") abc_store
    = Some ({| StringKeyValue.orig := Some 1%nat |}, true)
  /\ Insert abc_map "b" "9" abc_store = Ok tt abc_store.
Proof.
  split; [reflexivity|].
  exact (proj1 (Insert_keeps_existing_or_appends abc_store abc_map "b" "9")
           {| StringKeyValue.orig := Some 1%nat |} eq_refl).
Defined.

Lemma Upsert_example :
  eval (Get abc_map "b") abc_store
    = Some ({| StringKeyValue.orig := Some 1%nat |}, true)
  /\ exists h', Upsert abc_map "b" "9" abc_store = Ok tt h'
       /\ StringKeyValue.Value {| StringKeyValue.orig := Some 1%nat |} h' = Ok "9"%string h'.
Proof.
  split; [reflexivity|].
  destruct (proj1 (Upsert_updates_in_place_or_appends abc_store abc_map "b" "9")
              {| StringKeyValue.orig := Some 1%nat |} eq_refl)
    as (i & e & _ & _ & _ & HU & _ & HV).
  eexists. split; [exact HU|exact HV].
Defined.

(** On a map that holds ["a"] once and ["b"] twice, [Delete "a"] returns
    [true], leaves the slice one element shorter, and [Get "a"] then finds
    nothing. *)
Lemma Delete_example :
  eval (Get abb_map "a") abb_store
    = Some ({| StringKeyValue.orig := Some 0%nat |}, true)
  /\ exists h', Delete abb_map "a" abb_store = Ok true h'
       /\ Len abb_map h' = Ok 2 h'
       /\ Get abb_map "a" h' = Ok ({| StringKeyValue.orig := nil |}, false) h'.
Proof.
  split; [reflexivity|].
  destruct (proj1 (Delete_swap_removes_first_match abb_store abb_map "a")
              {| StringKeyValue.orig := Some 0%nat |} eq_refl)
    as (c & s & i & x & Hsm & Hc & _ & _ & HD & _ & Hafter).
  simpl in Hsm. injection Hsm as Hsm. subst c.
  simpl in Hc. injection Hc as Hc. subst s.
  destruct (Hafter _ eq_refl) as [Hgone _].
  pose proof (Hgone eq_refl) as HG. clear Hgone Hafter.
  assert (Hrun : Delete abb_map "a" abb_store
                 = Ok true {| recs := recs abb_store;
                              slices := [[Some 2%nat; Some 1%nat]] |})
    by reflexivity.
  match type of HD with
  | _ = Ok _ ?T =>
      assert (HT : T = {| recs := recs abb_store;
                          slices := [[Some 2%nat; Some 1%nat]] |})
        by congruence
  end.
  rewrite HT in HD, HG.
  eexists. split; [exact HD|]. split; [reflexivity|exact HG].
Defined.

(** C3 as stated fails on a map that holds a key twice: [Get] finds the key
    ["a"], [Delete] removes the first entry and returns [true], and [Get]
    still finds the key, in the other entry. *)
Lemma Delete_leaves_duplicate_key :
  let h' := {| recs := recs aa_store; slices := [[Some 1%nat]] |} in
  eval (Get aa_map "a") aa_store
    = Some ({| StringKeyValue.orig := Some 0%nat |}, true)
  /\ Delete aa_map "a" aa_store = Ok true h'
  /\ Get aa_map "a" h' = Ok ({| StringKeyValue.orig := Some 1%nat |}, true) h'
  /\ ~ exists a, Get aa_map "a" h' = Ok (a, false) h'.
Proof.
  cbv zeta. repeat split; try reflexivity.
  intros [a Ha]. vm_compute in Ha. discriminate Ha.
Qed.

Lemma Sort_example :
  contents abc_store abc_map
    = Some [{| Key := "a"; Value := "1" |}; {| Key := "b"; Value := "2" |};
            {| Key := "c"; Value := "3" |}]
  /\ exists h' es', Sort abc_map abc_store = Ok abc_map h'
       /\ contents h' abc_map = Some es' /\ ascending Key es'
       /\ Sort abc_map h' = Ok abc_map h'.
Proof.
  split; [reflexivity|].
  destruct (proj1 Sort_stable_idempotent_canonical abc_store abc_map _ eq_refl)
    as (c & s & s' & es' & _ & _ & HS & _ & _ & Hc & Hasc & HS2).
  eexists _, es'. split; [exact HS|]. split; [exact Hc|]. split; [exact Hasc|exact HS2].
Defined.

(** The store after [NewStringMap] of the empty Go map and two inserts is
    reachable; its map has pairwise different keys. *)
Lemma unique_keys_example :
  let h := {| recs := [{| Key := "b"; Value := "2" |}; {| Key := "a"; Value := "1" |}];
              slices := [[Some 0%nat; Some 1%nat]] |} in
  reachable h /\ unique_keys h {| orig := Some 0%nat |}.
Proof.
  cbv zeta.
  assert (Hr : reachable
    {| recs := [{| Key := "b"; Value := "2" |}; {| Key := "a"; Value := "1" |}];
       slices := [[Some 0%nat; Some 1%nat]] |}).
  { unfold reachable.
    eapply rtc_l.
    { apply (step_NewStringMap _ _ ∅ [] {| orig := Some 0%nat |}).
      - unfold range_order. by rewrite map_to_list_empty.
      - apply NewStringMap_empty_run. }
    eapply rtc_l.
    { by apply (step_Insert _ _ {| orig := Some 0%nat |} "b" "2"). }
    eapply rtc_l.
    { by apply (step_Insert _ _ {| orig := Some 0%nat |} "a" "1"). }
    apply rtc_refl. }
  split; [exact Hr|].
  apply (proj2 (proj2 key_uniqueness_is_invariant) _ {| orig := Some 0%nat |}
           0%nat Hr eq_refl).
  simpl. lia.
Defined.

End StringMapExamples.

(** * Further properties of the package *)

(** ** AttributeValue: constructors and zero values *)
Section AttributeValueMore.
Import otlpcommon AttributeValue.
Context `{VT : ValueTypes}.
Implicit Types (h : heap) (a b : t) (p : nat) (r : AttributeKeyValue).

(** Allocation leaves what the handles on the slots already there
    observe. *)
Lemma observe_app b h extra p :
  orig b = Some p -> (p < length h)%nat ->
  observe b (h ++ extra) = observe b h.
Proof.
  intros Hb Hp. destruct (lookup_lt_is_Some_2 h p Hp) as [r Hr].
  rewrite (observe_spec b h p r Hb Hr).
  apply (observe_spec b _ p r Hb). by apply lookup_app_l_Some.
Qed.

Lemma observe_fresh a h r extra :
  orig a = Some (length h) ->
  observe a (h ++ r :: extra)
  = (Some (Type_ r), Some (StringValue r), Some (IntValue r),
     Some (DoubleValue r), Some (BoolValue r)).
Proof.
  intros Ha. apply (observe_spec a _ (length h)); [done|].
  by apply list_lookup_middle.
Qed.

(** X1: each constructor returns a handle on a new slot: [Type'] reads the
    constructor's discriminant, the matching getter the value given, the
    other getters the zero value of their type; every handle on a slot that
    was there before observes what it observed. *)
Theorem constructors_read_back h :
  (forall v, exists a h',
     NewAttributeValueString v h = Ok a h'
     /\ observe a h' = (Some AttributeValueSTRING, Some v, Some 0,
                        Some 0%float, Some false)
     /\ forall b p, orig b = Some p -> (p < length h)%nat ->
          observe b h' = observe b h)
  /\ (forall v, exists a h',
     NewAttributeValueInt v h = Ok a h'
     /\ observe a h' = (Some AttributeValueINT, Some ""%string, Some v,
                        Some 0%float, Some false)
     /\ forall b p, orig b = Some p -> (p < length h)%nat ->
          observe b h' = observe b h)
  /\ (forall v, exists a h',
     NewAttributeValueDouble v h = Ok a h'
     /\ observe a h' = (Some AttributeValueDOUBLE, Some ""%string, Some 0,
                        Some v, Some false)
     /\ forall b p, orig b = Some p -> (p < length h)%nat ->
          observe b h' = observe b h)
  /\ (forall v, exists a h',
     NewAttributeValueBool v h = Ok a h'
     /\ observe a h' = (Some AttributeValueBOOL, Some ""%string, Some 0,
                        Some 0%float, Some v)
     /\ forall b p, orig b = Some p -> (p < length h)%nat ->
          observe b h' = observe b h).
Proof.
  repeat split; intros v; eexists _, _;
    (split; [reflexivity|]);
    (split; [by apply observe_fresh|]);
    intros b p Hb Hp; by apply (observe_app b h _ p).
Qed.

(** X2: [NewAttributeValueSlice] panics on a negative length.  When it
    returns, the length was not negative, there are as many handles as the
    length says, every one of them reads the zero discriminant and the zero
    value of each payload, the handles on the slots that were there before
    observe what they observed, and for length [0] the store is as it
    was. *)
Theorem NewAttributeValueSlice_zero_values (len : Z) h :
  (len < 0 -> NewAttributeValueSlice len h = Panic)
  /\ (forall ws h',
       NewAttributeValueSlice len h = Ok ws h' ->
       0 <= len /\ length ws = Z.to_nat len
       /\ (forall a, a ∈ ws ->
             observe a h' = (Some 0, Some ""%string, Some 0,
                             Some 0%float, Some false))
       /\ (forall b p, orig b = Some p -> (p < length h)%nat ->
             observe b h' = observe b h)
       /\ (len = 0 -> ws = [] /\ h' = h)).
Proof.
  split.
  - intros Hneg. unfold NewAttributeValueSlice.
    by rewrite (proj2 (Z.ltb_lt len 0) Hneg).
  - intros ws h' H.
    destruct (Z.ltb_spec len 0) as [Hneg|Hlen].
    { unfold NewAttributeValueSlice in H.
      by rewrite (proj2 (Z.ltb_lt len 0) Hneg) in H. }
    rewrite NewAttributeValueSlice_spec in H by done.
    injection H as <- <-.
    split; [done|]. split; [by rewrite length_fmap, length_seq|].
    split; [|split].
    + intros a Ha. apply list_elem_of_fmap in Ha as (i & -> & Hi).
      apply elem_of_seq in Hi.
      apply (observe_spec _ _ (length h + i)%nat AttributeKeyValue_zero); [done|].
      rewrite lookup_app_r by lia.
      apply lookup_replicate_2. lia.
    + intros b p Hb Hp. by apply (observe_app b h _ p).
    + intros ->. simpl. by rewrite app_nil_r.
Qed.

End AttributeValueMore.

(** ** StringKeyValue and the readers of StringMap *)
Section StringMapReaders.
Import otlpcommon KV StringMap.
Implicit Types (h : heap) (s : list ptr) (es : list StringKeyValue)
  (k v : string) (p : ptr) (sm : StringMap.t) (c : nat).

Lemma Key_spec (a : StringKeyValue.t) h e :
  rec_at h (StringKeyValue.orig a) = Some e ->
  StringKeyValue.Key a h = Ok (Key e) h.
Proof. intros He. unfold StringKeyValue.Key, bind, load_rec. by rewrite He. Qed.

(** X4: [NewStringKeyValue k v] returns a pair on a new record that reads
    [k] and [v] and leaves the records and slices that were there.  On a
    pair that designates a record, [SetValue] through any copy makes [Value]
    read the new value, leaves [Key] as it was, and writes no other record
    and no slice. *)
Theorem StringKeyValue_reads_back h :
  (forall k v, exists akv h',
     StringKeyValue.NewStringKeyValue k v h = Ok akv h'
     /\ StringKeyValue.Key akv h' = Ok k h'
     /\ StringKeyValue.Value akv h' = Ok v h'
     /\ slices h' = slices h
     /\ forall q e, rec_at h q = Some e -> rec_at h' q = Some e)
  /\ (forall (akv b : StringKeyValue.t) e v,
       rec_at h (StringKeyValue.orig akv) = Some e ->
       StringKeyValue.orig b = StringKeyValue.orig akv ->
       exists h',
         StringKeyValue.SetValue b v h = Ok tt h'
         /\ StringKeyValue.Value akv h' = Ok v h'
         /\ StringKeyValue.Key akv h' = Ok (Key e) h'
         /\ slices h' = slices h
         /\ forall q, q <> StringKeyValue.orig akv -> rec_at h' q = rec_at h q).
Proof.
  split.
  - intros k v. eexists _, _. split; [reflexivity|].
    split; [|split; [|split]].
    + apply (Key_spec _ _ {| Key := k; Value := v |}). simpl.
      by apply list_lookup_middle.
    + apply (Value_spec _ _ {| Key := k; Value := v |}). simpl.
      by apply list_lookup_middle.
    + done.
    + intros q e. by apply (rec_at_alloc h _ [{| Key := k; Value := v |}]).
  - intros akv b e v He Hb. destruct akv as [[i|]]; [|done].
    destruct b as [pb]. simpl in *. subst pb.
    eexists. split; [by apply (SetValue_spec _ i e)|].
    assert (Hi : (i < length (recs h))%nat) by (by eapply lookup_lt_Some).
    split; [|split; [|split]].
    + apply (Value_spec _ _ {| Key := Key e; Value := v |}). simpl.
      by apply list_lookup_insert_eq.
    + apply (Key_spec _ _ {| Key := Key e; Value := v |}). simpl.
      by apply list_lookup_insert_eq.
    + done.
    + intros [j|] Hne; [|done]. simpl.
      apply list_lookup_insert_ne. congruence.
Qed.

(** X5: when [Get sm k] finds a pair, [Update sm k v] writes [v] to the
    value of the record that pair designates and nothing else; the pair is
    found again and reads [v].  When [Get sm k] finds none, [Update sm k v]
    returns and leaves the store as it is: nothing is inserted. *)
Theorem Update_writes_found_pair_only h sm k v :
  (forall a, eval (Get sm k) h = Some (a, true) ->
     exists i e,
       StringKeyValue.orig a = Some i /\ recs h !! i = Some e /\ Key e = k
       /\ let h' := {| recs := <[i := {| Key := k; Value := v |}]> (recs h);
                       slices := slices h |} in
          Update sm k v h = Ok tt h'
          /\ Get sm k h' = Ok (a, true) h'
          /\ StringKeyValue.Value a h' = Ok v h')
  /\ (forall a, eval (Get sm k) h = Some (a, false) ->
       Update sm k v h = Ok tt h).
Proof.
  split.
  - intros a Ha. apply Get_eval_inv in Ha as (HG & c & s & Hsm & Hc & HL).
    destruct (Get_loop_found_inv _ _ _ _ HL) as [i0 Hm].
    destruct (first_match_rec _ _ _ _ _ Hm) as (i & e & Ha & Hi & Hk).
    exists i, e. subst k. do 3 (split; [done|]). cbv zeta. split; [|split].
    + by apply (Update_present _ _ _ _ a).
    + apply (Get_run _ c s); [done..|]. destruct a as [pa]. simpl in *.
      apply (Get_loop_first_match _ _ _ i0).
      by apply (first_match_set_Value h _ i e v).
    + apply (Value_spec a _ {| Key := Key e; Value := v |}). rewrite Ha. simpl.
      apply list_lookup_insert_eq. by eapply lookup_lt_Some.
  - intros a Ha. apply Get_eval_inv in Ha as (HG & _).
    by apply (Update_absent _ _ _ _ a).
Qed.

(** The keys read through the elements are the keys of the records. *)
Lemma key_at_entries h s es :
  entries h s = Some es -> key_at h <$> s = Key <$> es.
Proof.
  rewrite entries_Forall2. induction 1 as [|p e s es Hp _ IH]; [done|].
  rewrite !fmap_cons, IH. by rewrite (key_at_rec h p e Hp).
Qed.

(** X6: on a map all elements of which designate records, [Get sm k] leaves
    the store as it is; when [k] is among the keys it returns, with [true],
    the pair on the first element of the slice whose key is [k], and [Key]
    on that pair reads [k]; when [k] is not among the keys it returns the
    pair of nil pointer with [false]. *)
Theorem Get_finds_first_pair h sm es k :
  contents h sm = Some es ->
  (k ∈ Key <$> es ->
     exists c s i p,
       orig sm = Some c /\ slices h !! c = Some s /\ first_match h s k i p
       /\ Get sm k h = Ok ({| StringKeyValue.orig := p |}, true) h
       /\ StringKeyValue.Key {| StringKeyValue.orig := p |} h = Ok k h)
  /\ (k ∉ Key <$> es ->
       Get sm k h = Ok ({| StringKeyValue.orig := nil |}, false) h).
Proof.
  intros Hc. destruct (contents_inv _ _ _ Hc) as (c & s & Hsm & Hs & Hes).
  destruct (entries_match_or_absent h s es k Hes) as [Hall|(i & p & Hm)].
  - assert (Hnot : k ∉ Key <$> es).
    { intros (e & -> & He)%list_elem_of_fmap.
      rewrite Forall_forall in Hall. by apply (Hall e). }
    split; [done|]. intros _.
    apply (Get_run _ c s); [done..|]. by apply (Get_loop_absent _ _ _ es).
  - assert (Hin : k ∈ Key <$> es).
    { destruct Hm as (Hi & (e & He & Hk) & _).
      apply entries_Forall2 in Hes.
      destruct (Forall2_lookup_l _ _ _ _ _ Hes Hi) as (e' & Hi' & He').
      assert (e' = e) as -> by congruence.
      rewrite <- Hk. apply list_elem_of_fmap_2.
      by eapply list_elem_of_lookup_2. }
    split; [|done]. intros _. exists c, s, i, p. do 3 (split; [done|]).
    split.
    + apply (Get_run _ c s); [done..|]. by apply (Get_loop_first_match _ _ _ i).
    + destruct Hm as (_ & (e & He & <-) & _). by apply Key_spec.
Qed.

(** X7: on a map all elements of which designate records, [Len] is the
    number of elements; [GetStringKeyValue ix] for [0 <= ix < Len] returns
    the pair on the element at [ix], which reads the key and the value of
    the record at [ix]; for every other [ix] it panics.  Neither writes. *)
Theorem Len_and_GetStringKeyValue h sm es :
  contents h sm = Some es ->
  Len sm h = Ok (Z.of_nat (length es)) h
  /\ (forall ix, 0 <= ix < Z.of_nat (length es) ->
        exists a e,
          GetStringKeyValue sm ix h = Ok a h
          /\ es !! Z.to_nat ix = Some e
          /\ StringKeyValue.Key a h = Ok (Key e) h
          /\ StringKeyValue.Value a h = Ok (Value e) h)
  /\ (forall ix, ix < 0 \/ Z.of_nat (length es) <= ix ->
        GetStringKeyValue sm ix h = Panic).
Proof.
  intros Hc. destruct (contents_inv _ _ _ Hc) as (c & s & Hsm & Hs & Hes).
  pose proof (entries_length _ _ _ Hes) as Hlen.
  split; [|split].
  - unfold Len, bind. rewrite Hsm, (load_slice_Some _ _ _ Hs).
    unfold ret. by rewrite Hlen.
  - intros ix Hix.
    destruct (lookup_lt_is_Some_2 s (Z.to_nat ix)) as [p Hp]; [lia|].
    apply entries_Forall2 in Hes.
    destruct (Forall2_lookup_l _ _ _ _ _ Hes Hp) as (e & He & Hpe).
    exists {| StringKeyValue.orig := p |}, e. split; [|split; [done|split]].
    + unfold GetStringKeyValue, bind. rewrite Hsm, (load_slice_Some _ _ _ Hs).
      destruct (Z.ltb_spec ix 0) as [?|_]; [lia|].
      unfold index. by rewrite Hp.
    + by apply Key_spec.
    + by apply Value_spec.
  - intros ix Hix. unfold GetStringKeyValue, bind.
    rewrite Hsm, (load_slice_Some _ _ _ Hs).
    destruct (Z.ltb_spec ix 0) as [?|Hge]; [done|].
    unfold index. rewrite lookup_ge_None_2; [done|lia].
Qed.

End StringMapReaders.

(** ** StringMap: what a write leaves of the lookups *)
Section StringMapLookups.
Import otlpcommon KV StringMap.
Implicit Types (h : heap) (s : list ptr) (es : list StringKeyValue)
  (k v : string) (p : ptr) (sm : StringMap.t) (c : nat).

(** The scan of [Get] returns the first element with the key. *)
Lemma Get_loop_result h s es k :
  entries h s = Some es -> Get_loop s k h = Ok (Get_result h s k) h.
Proof.
  revert es. induction s as [|q s IH]; intros es; [done|].
  rewrite entries_cons. cbn [Get_loop]. unfold bind, load_rec.
  destruct (rec_at h q) as [e|] eqn:Hq; [|done].
  destruct (entries h s) as [es'|]; [|done]. intros _.
  unfold Get_result, first_with_key. rewrite filter_cons, (key_at_rec h q e Hq).
  destruct (String.eqb_spec (Key e) k) as [Hk|Hk].
  - by rewrite decide_True.
  - rewrite decide_False by done. by apply (IH es').
Qed.

Lemma Get_result_run h sm c s es k :
  orig sm = Some c -> slices h !! c = Some s -> entries h s = Some es ->
  Get sm k h = Ok (Get_result h s k) h.
Proof.
  intros Hsm Hs Hes. apply (Get_run _ c s); [done..|].
  by apply (Get_loop_result _ _ es).
Qed.

Lemma filter_key_at_agree h h' s k :
  key_at h' <$> s = key_at h <$> s ->
  filter (fun p => key_at h' p = k) s = filter (fun p => key_at h p = k) s.
Proof.
  induction s as [|q s IH]; [done|]. rewrite !fmap_cons. intros [= Hq Hs].
  rewrite !filter_cons, Hq, (IH Hs). done.
Qed.

Lemma Get_result_agree h h' s k :
  key_at h' <$> s = key_at h <$> s -> Get_result h' s k = Get_result h s k.
Proof.
  intros Heq. unfold Get_result, first_with_key.
  by rewrite (filter_key_at_agree h h' s k Heq).
Qed.

Lemma entries_appended h s es k v sl :
  entries h s = Some es ->
  entries {| recs := recs h ++ [{| Key := k; Value := v |}]; slices := sl |}
    (s ++ [Some (length (recs h))])
  = Some (es ++ [{| Key := k; Value := v |}]).
Proof.
  intros Hes. apply entries_Forall2. apply Forall2_app.
  - apply entries_Forall2.
    by apply (entries_alloc h _ [{| Key := k; Value := v |}]).
  - constructor; [|constructor]. simpl. by apply list_lookup_middle.
Qed.

(** An appended pair of another key is not what a scan returns. *)
Lemma Get_result_appended h s es k k' v sl :
  entries h s = Some es -> k' <> k ->
  Get_result {| recs := recs h ++ [{| Key := k; Value := v |}]; slices := sl |}
    (s ++ [Some (length (recs h))]) k'
  = Get_result h s k'.
Proof.
  intros Hes Hne. unfold Get_result, first_with_key.
  rewrite filter_app, filter_cons_False, filter_nil, app_nil_r.
  - rewrite (filter_key_at_agree h); [done|].
    rewrite (key_at_entries h s es Hes).
    apply key_at_entries.
    by apply (entries_alloc h _ [{| Key := k; Value := v |}]).
  - unfold key_at. simpl. rewrite list_lookup_middle by done. simpl. congruence.
Qed.

(** Writing a value leaves what a scan returns. *)
Lemma Get_result_set_Value h s es i e v k sl :
  entries h s = Some es -> recs h !! i = Some e ->
  Get_result {| recs := <[i := {| Key := Key e; Value := v |}]> (recs h);
                slices := sl |} s k
  = Get_result h s k.
Proof.
  intros Hes Hi.
  destruct (entries_set_Value h
    {| recs := <[i := {| Key := Key e; Value := v |}]> (recs h); slices := sl |}
    i e v s es eq_refl Hi Hes) as (es' & Hes' & Hk).
  apply Get_result_agree.
  by rewrite (key_at_entries _ s es' Hes'), (key_at_entries h s es Hes).
Qed.

(** X9: on a map all elements of which designate records, [Insert],
    [Update] and [Upsert] on the key [k] return, and what [Get] returns for
    any other key is the same pair and flag after as before. *)
Theorem writes_leave_other_keys h sm es k k' v :
  contents h sm = Some es -> k' <> k ->
  exists x,
    Get sm k' h = Ok x h
    /\ (exists h', Insert sm k v h = Ok tt h' /\ Get sm k' h' = Ok x h')
    /\ (exists h', Update sm k v h = Ok tt h' /\ Get sm k' h' = Ok x h')
    /\ (exists h', Upsert sm k v h = Ok tt h' /\ Get sm k' h' = Ok x h').
Proof.
  intros Hc Hne. destruct (contents_inv _ _ _ Hc) as (c & s & Hsm & Hs & Hes).
  pose proof (lookup_lt_Some _ _ _ Hs) as Hlt.
  exists (Get_result h s k').
  pose proof (Get_result_run h sm c s es k' Hsm Hs Hes) as HG'.
  split; [done|].
  assert (Happ : Get sm k'
    {| recs := recs h ++ [{| Key := k; Value := v |}];
       slices := <[c := s ++ [Some (length (recs h))]]> (slices h) |}
    = Ok (Get_result h s k')
        {| recs := recs h ++ [{| Key := k; Value := v |}];
           slices := <[c := s ++ [Some (length (recs h))]]> (slices h) |}).
  { rewrite <- (Get_result_appended h s es k k' v
                 (<[c := s ++ [Some (length (recs h))]]> (slices h)) Hes Hne).
    eapply (Get_result_run _ sm c); [done| |by apply entries_appended].
    cbn [slices]. by apply list_lookup_insert_eq. }
  destruct (entries_match_or_absent h s es k Hes) as [Hall|(i & p & Hm)].
  - assert (HG : Get sm k h = Ok ({| StringKeyValue.orig := nil |}, false) h).
    { apply (Get_run _ c s); [done..|]. by apply (Get_loop_absent _ _ _ es). }
    split; [|split].
    + eexists. split; [by apply (Insert_absent _ c s _ _ _ _ Hsm Hs HG)|done].
    + exists h. split; [by apply (Update_absent _ _ _ _ _ HG)|done].
    + eexists. split; [by apply (Upsert_absent _ c s _ _ _ _ Hsm Hs HG)|done].
  - assert (HG : Get sm k h = Ok ({| StringKeyValue.orig := p |}, true) h).
    { apply (Get_run _ c s); [done..|]. by apply (Get_loop_first_match _ _ _ i). }
    destruct (first_match_rec _ _ _ _ _ Hm) as (j & e & -> & Hj & Hk).
    assert (Hset : Get sm k'
      {| recs := <[j := {| Key := Key e; Value := v |}]> (recs h);
         slices := slices h |}
      = Ok (Get_result h s k')
          {| recs := <[j := {| Key := Key e; Value := v |}]> (recs h);
             slices := slices h |}).
    { rewrite <- (Get_result_set_Value h s es j e v k' (slices h) Hes Hj).
      destruct (entries_set_Value h
        {| recs := <[j := {| Key := Key e; Value := v |}]> (recs h);
           slices := slices h |} j e v s es eq_refl Hj Hes) as (es' & Hes' & _).
      by apply (Get_result_run _ sm c s es'). }
    split; [|split].
    + exists h. split; [by apply (Insert_present _ _ _ _ _ HG)|done].
    + eexists. split; [by apply (Update_present _ _ _ _ _ j e HG)|done].
    + eexists. split; [by apply (Upsert_present _ _ _ _ _ j e HG)|done].
Qed.

Lemma filter_delete_not {A} (P : A -> Prop) `{!forall x, Decision (P x)}
    (l : list A) i x :
  l !! i = Some x -> ~ P x -> filter P (delete i l) = filter P l.
Proof.
  intros Hi Hx. apply list_elem_of_split_length in Hi as (l1 & l2 & -> & ->).
  rewrite delete_middle, !filter_app. by rewrite filter_cons_False.
Qed.

(** Among elements of pairwise different keys at most one has a given
    key. *)
Lemma filter_key_length {A} (f : A -> string) (l : list A) k :
  NoDup (f <$> l) -> (length (filter (fun x => f x = k) l) <= 1)%nat.
Proof.
  induction l as [|a l IH]; [simpl; lia|].
  rewrite fmap_cons. intros [Ha Hl]%NoDup_cons. rewrite filter_cons.
  destruct (decide (f a = k)) as [Hk|Hk]; [|by apply IH].
  destruct (filter (fun x => f x = k) l) as [|y t] eqn:E; [simpl; lia|].
  exfalso. apply Ha.
  assert (Hy : y ∈ filter (fun x => f x = k) l) by (rewrite E; left).
  apply list_elem_of_filter in Hy as [Hfy Hy].
  rewrite Hk, <- Hfy. by apply list_elem_of_fmap_2.
Qed.

Lemma Permutation_short {A} (l1 l2 : list A) :
  l1 ≡ₚ l2 -> (length l1 <= 1)%nat -> l1 = l2.
Proof.
  destruct l1 as [|a [|b l1]]; simpl; intros Hp Hl; [| |lia].
  - by apply Permutation_nil_l.
  - by apply Permutation_singleton_l.
Qed.

(** With pairwise different keys, the swap-remove of the pair of one key
    leaves what a scan for another key returns. *)
Lemma Get_result_swap_remove h s es k k' i p x sl :
  entries h s = Some es -> NoDup (Key <$> es) ->
  first_match h s k i p -> last s = Some x -> k' <> k ->
  Get_result {| recs := recs h; slices := sl |}
    (take (length s - 1) (<[i := x]> s)) k'
  = Get_result h s k'.
Proof.
  intros Hes Hnd Hm Hx Hne. pose proof Hm as (Hi & (e & He & Hk) & _).
  pose proof (lookup_lt_Some _ _ _ Hi) as Hlt.
  assert (Hnds : NoDup (key_at h <$> s)) by (by rewrite (key_at_entries h s es)).
  unfold Get_result, first_with_key.
  rewrite (filter_key_at_agree h); [|by apply list_fmap_ext].
  assert (Heq : filter (fun q => key_at h q = k') (take (length s - 1) (<[i := x]> s))
                = filter (fun q => key_at h q = k') s); [|by rewrite Heq].
  apply Permutation_short.
  - rewrite swap_remove_Permutation by done.
    rewrite (filter_delete_not _ s i p Hi); [done|].
    rewrite (key_at_rec h p e He). congruence.
  - apply (filter_key_length (key_at h)).
    rewrite fmap_take, list_fmap_insert, <- (length_fmap (key_at h) s).
    apply swap_remove_NoDup; [by rewrite length_fmap|by rewrite fmap_last, Hx|done].
Qed.

(** X10: on a map of pairwise different keys, [Delete sm k] returns, and
    what [Get] returns for any other key is the same pair and flag after as
    before: the swap-remove moves an element and loses none. *)
Theorem Delete_leaves_other_keys h sm k k' :
  unique_keys h sm -> k' <> k ->
  exists x b h',
    Get sm k' h = Ok x h
    /\ Delete sm k h = Ok b h'
    /\ Get sm k' h' = Ok x h'.
Proof.
  intros Hu Hne.
  destruct (unique_keys_inv _ _ Hu) as (c & s & es & Hsm & Hs & Hes & Hnd).
  pose proof (lookup_lt_Some _ _ _ Hs) as Hc.
  pose proof (Get_result_run h sm c s es k' Hsm Hs Hes) as HG'.
  exists (Get_result h s k').
  destruct (entries_match_or_absent h s es k Hes) as [Hall|(i & p & Hm)].
  - exists false, h. split; [done|]. split; [|done].
    unfold Delete, bind. rewrite Hsm, (load_slice_Some _ _ _ Hs).
    by apply (Delete_loop_absent _ _ _ _ _ es).
  - pose proof Hm as (Hi & _). pose proof (lookup_lt_Some _ _ _ Hi) as Hlt.
    destruct (lookup_lt_is_Some_2 s (pred (length s))) as [x Hx]; [lia|].
    rewrite <- last_lookup in Hx.
    destruct (entries_swap_remove h s es x i Hes Hx) as (ex & Hlast & Hes').
    eexists true, _. split; [done|]. split.
    + unfold Delete, bind. rewrite Hsm, (load_slice_Some _ _ _ Hs).
      by apply (Delete_loop_found sm c s x k h Hsm Hs Hx s [] i p).
    + simpl.
      rewrite <- (Get_result_swap_remove h s es k k' i p x
                   (<[c := take (length s - 1) (<[i := x]> s)]> (slices h))
                   Hes Hnd Hm Hx Hne).
      eapply (Get_result_run _ sm c); [done| |].
      * cbn [slices]. by apply list_lookup_insert_eq.
      * rewrite <- Hes'. by apply entries_same_recs.
Qed.

(** X11: on a map all elements of which designate records and none of
    which has the key [k], [Insert sm k v] followed by [Delete sm k] returns
    [true] and leaves every slice, that of the map included, as it was
    before the insert; the record of the pair stays allocated. *)
Theorem Insert_then_Delete_restores h sm es k v :
  contents h sm = Some es -> k ∉ Key <$> es ->
  exists h1 h2,
    Insert sm k v h = Ok tt h1
    /\ Delete sm k h1 = Ok true h2
    /\ slices h2 = slices h
    /\ recs h2 = recs h ++ [{| Key := k; Value := v |}]
    /\ contents h2 sm = Some es.
Proof.
  intros Hc Hnot. destruct (contents_inv _ _ _ Hc) as (c & s & Hsm & Hs & Hes).
  pose proof (lookup_lt_Some _ _ _ Hs) as Hlt.
  assert (Hall : Forall (fun e => Key e <> k) es).
  { apply Forall_forall. intros e He Hk. apply Hnot. rewrite <- Hk.
    by apply list_elem_of_fmap_2. }
  assert (HG : Get sm k h = Ok ({| StringKeyValue.orig := nil |}, false) h).
  { apply (Get_run _ c s); [done..|]. by apply (Get_loop_absent _ _ _ es). }
  eexists _, _. split; [by apply (Insert_absent _ c s _ _ _ _ Hsm Hs HG)|].
  set (pn := Some (length (recs h))).
  set (h1 := {| recs := recs h ++ [{| Key := k; Value := v |}];
                slices := <[c := s ++ [pn]]> (slices h) |}).
  assert (Hs1 : slices h1 !! c = Some (s ++ [pn])).
  { cbn [slices h1]. by apply list_lookup_insert_eq. }
  assert (Hm : first_match h1 (s ++ [pn]) k (length s) pn).
  { by apply (first_match_appended h s es). }
  pose proof (Delete_loop_found sm c (s ++ [pn]) pn k h1 Hsm Hs1
                (last_snoc _ _) (s ++ [pn]) [] (length s) pn eq_refl Hm) as HD.
  cbn [length Nat.add] in HD.
  rewrite insert_at_middle, length_app in HD. cbn [length] in HD.
  replace (length s + 1 - 1)%nat with (length s) in HD by lia.
  rewrite take_app_length in HD. cbn [recs slices h1] in HD.
  rewrite list_insert_insert_eq, (list_insert_id _ _ _ Hs) in HD.
  split.
  { unfold Delete, bind. rewrite Hsm, (load_slice_Some _ _ _ Hs1). exact HD. }
  split; [done|]. split; [done|].
  - unfold contents. rewrite Hsm. cbn [slices]. rewrite Hs.
    by apply (entries_alloc h _ [{| Key := k; Value := v |}]).
Qed.

Lemma SliceStable_Sort_less h s :
  SliceStable (Sort_less h) s = SliceStable (less_key (key_at h)) s.
Proof. reflexivity. Qed.

(** X12: on a map all elements of which designate records, [Sort] returns
    and leaves the number of elements and, for every key, the pair and flag
    [Get] returns: the sort is stable, so the first pair of a key stays the
    first. *)
Theorem Sort_leaves_lookups h sm es :
  contents h sm = Some es ->
  exists h',
    Sort sm h = Ok sm h'
    /\ Len sm h' = Ok (Z.of_nat (length es)) h'
    /\ forall k, exists x, Get sm k h = Ok x h /\ Get sm k h' = Ok x h'.
Proof.
  intros Hc. destruct (contents_inv _ _ _ Hc) as (c & s & Hsm & Hs & Hes).
  pose proof (lookup_lt_Some _ _ _ Hs) as Hlt.
  eexists. split; [by apply (Sort_spec sm c s es)|].
  assert (Hs' : slices {| recs := recs h;
                  slices := <[c := SliceStable (Sort_less h) s]> (slices h) |} !! c
                = Some (SliceStable (Sort_less h) s)).
  { cbn [slices]. by apply list_lookup_insert_eq. }
  split.
  - unfold Len, bind. rewrite Hsm, (load_slice_Some _ _ _ Hs'). unfold ret.
    by rewrite SliceStable_Sort_less,
               (Permutation_length (SliceStable_perm (key_at h) s)),
               (entries_length _ _ _ Hes).
  - intros k. exists (Get_result h s k).
    split; [by apply (Get_result_run h sm c s es)|].
    assert (Heq : Get_result
        {| recs := recs h;
           slices := <[c := SliceStable (Sort_less h) s]> (slices h) |}
        (SliceStable (Sort_less h) s) k = Get_result h s k).
    { unfold Get_result, first_with_key.
      rewrite (filter_key_at_agree h); [|by apply list_fmap_ext].
      by rewrite SliceStable_Sort_less, (SliceStable_filter (key_at h) k s). }
    rewrite <- Heq.
    eapply (Get_result_run _ sm c); [done|exact Hs'|].
    rewrite <- (entries_SliceStable h s es Hes). by apply entries_same_recs.
Qed.

End StringMapLookups.

(** ** StringMap: the map built from a Go map *)
Section StringMapFromGoMap.
Import otlpcommon KV StringMap.
Implicit Types (h : heap) (s : list ptr) (es : list StringKeyValue)
  (k v : string) (p : ptr) (sm : StringMap.t) (c : nat).

Local Abbreviation pair_rec :=
  (fun kv : string * string => {| Key := kv.1; Value := kv.2 |}).

Lemma pair_rec_elem_of (attrMap : gmap string string) order e :
  range_order attrMap order ->
  e ∈ pair_rec <$> order <-> attrMap !! Key e = Some (Value e).
Proof.
  intros Hord. unfold range_order in Hord. rewrite list_elem_of_fmap. split.
  - intros ([k v] & -> & Hkv). rewrite Hord in Hkv.
    by apply elem_of_map_to_list in Hkv.
  - intros He. exists (Key e, Value e). split; [by destruct e|].
    rewrite Hord. by apply elem_of_map_to_list.
Qed.

(** X8: for a Go map and any order in which [range] yields its entries,
    [NewStringMap] returns a map whose [Len] is the size of the Go map and
    in which [Get k] finds a pair of key [k] and value [m[k]] when [k] is in
    the Go map, and finds nothing when it is not. *)
Theorem NewStringMap_lookup (attrMap : gmap string string) order h :
  range_order attrMap order ->
  exists sm h',
    NewStringMap attrMap order h = Ok sm h'
    /\ Len sm h' = Ok (Z.of_nat (size attrMap)) h'
    /\ forall k,
         match attrMap !! k with
         | Some v =>
             exists a, Get sm k h' = Ok (a, true) h'
               /\ StringKeyValue.Key a h' = Ok k h'
               /\ StringKeyValue.Value a h' = Ok v h'
         | None => Get sm k h' = Ok ({| StringKeyValue.orig := nil |}, false) h'
         end.
Proof.
  intros Hord.
  destruct (NewStringMap_unique_keys attrMap order h Hord)
    as (sm & h' & HN & _ & Hc).
  exists sm, h'. split; [done|].
  destruct (contents_inv _ _ _ Hc) as (c & s & Hsm & Hs & Hes).
  split.
  - unfold Len, bind. rewrite Hsm, (load_slice_Some _ _ _ Hs). unfold ret.
    rewrite <- (entries_length _ _ _ Hes), length_fmap.
    by rewrite (range_order_length _ _ Hord).
  - intros k.
    destruct (entries_match_or_absent h' s _ k Hes) as [Hall|(i & p & Hm)].
    + destruct (attrMap !! k) as [v|] eqn:Hk.
      * exfalso. rewrite Forall_forall in Hall.
        apply (Hall {| Key := k; Value := v |}); [|done].
        by apply (pair_rec_elem_of attrMap).
      * apply (Get_run _ c s); [done..|]. by eapply Get_loop_absent.
    + pose proof Hm as (Hi & (e & He & Hke) & _).
      pose proof Hes as HF. apply entries_Forall2 in HF.
      destruct (Forall2_lookup_l _ _ _ _ _ HF Hi) as (e' & Hi' & He').
      assert (e' = e) as -> by congruence.
      apply list_elem_of_lookup_2 in Hi'.
      apply (pair_rec_elem_of attrMap order e Hord) in Hi'.
      rewrite Hke in Hi'. rewrite Hi'.
      exists {| StringKeyValue.orig := p |}. split; [|split].
      * apply (Get_run _ c s); [done..|]. by apply (Get_loop_first_match _ _ _ i).
      * rewrite <- Hke. by apply Key_spec.
      * by apply Value_spec.
Qed.

Lemma contents_alloc h h' sm es extra new :
  recs h' = recs h ++ extra -> slices h' = slices h ++ new ->
  contents h sm = Some es -> contents h' sm = Some es.
Proof.
  intros Hr Hs Hc. destruct (contents_inv _ _ _ Hc) as (c & s & Hsm & Hcs & Hes).
  unfold contents. rewrite Hsm, Hs, (lookup_app_l_Some _ _ _ _ Hcs).
  by apply (entries_alloc h _ extra).
Qed.

(** X13: two maps built by [NewStringMap] from the same Go map, whatever
    the two orders of iteration, view the same sequence of pairs once both
    are sorted: the entries of the Go map in ascending order of the keys.
    This is the comparison [Sort] is there for. *)
Theorem NewStringMap_Sort_canonical (attrMap : gmap string string) o1 o2 h :
  range_order attrMap o1 -> range_order attrMap o2 ->
  exists sm1 sm2 h' es,
    (m1 <- NewStringMap attrMap o1 ;;
     m2 <- NewStringMap attrMap o2 ;;
     Sort m1 ;;;
     Sort m2 ;;;
     ret (m1, m2)) h = Ok (sm1, sm2) h'
    /\ orig sm1 <> orig sm2
    /\ contents h' sm1 = Some es /\ contents h' sm2 = Some es
    /\ ascending Key es
    /\ es ≡ₚ pair_rec <$> map_to_list attrMap.
Proof.
  intros Ho1 Ho2.
  destruct (NewStringMap_unique_keys attrMap o1 h Ho1)
    as (sm1 & h1 & HN1 & Hu1 & Hc1).
  destruct (NewStringMap_unique_keys attrMap o2 h1 Ho2)
    as (sm2 & h2 & HN2 & _ & Hc2).
  pose proof HN1 as HN1'. rewrite (NewStringMap_spec _ _ _ Ho1) in HN1'.
  injection HN1' as <- Hh1.
  pose proof HN2 as HN2'. rewrite (NewStringMap_spec _ _ _ Ho2) in HN2'.
  injection HN2' as <- Hh2.
  assert (Hne : Some (length (slices h)) <> Some (length (slices h1)) :> ptr).
  { rewrite <- Hh1. cbn [slices]. rewrite length_app. simpl. intros [=]. lia. }
  assert (Hc12 : contents h2 {| orig := Some (length (slices h)) |}
                 = Some (pair_rec <$> o1)).
  { rewrite <- Hh2. by eapply contents_alloc. }
  destruct (Sort_contents h2 _ _ Hc12) as (h3 & HS1 & Hc31 & Hother3).
  assert (Hc32 : contents h3 {| orig := Some (length (slices h1)) |}
                 = Some (pair_rec <$> o2)).
  { rewrite (Hother3 {| orig := Some (length (slices h1)) |}); [done|].
    simpl. congruence. }
  destruct (Sort_contents h3 _ _ Hc32) as (h4 & HS2 & Hc42 & Hother4).
  assert (Hperm : pair_rec <$> o1 ≡ₚ pair_rec <$> o2).
  { unfold range_order in *. by rewrite Ho1, Ho2. }
  assert (Hnd : NoDup (Key <$> (pair_rec <$> o1))).
  { destruct Hu1 as (es1 & Hes1 & Hnd1). congruence. }
  exists {| orig := Some (length (slices h)) |},
         {| orig := Some (length (slices h1)) |}, h4,
         (SliceStable (less_key Key) (pair_rec <$> o1)).
  split; [|split; [done|split; [|split; [|split]]]].
  - unfold bind. by rewrite HN1, HN2, HS1, HS2.
  - rewrite (Hother4 {| orig := Some (length (slices h)) |}); [done|].
    simpl. congruence.
  - by rewrite (SliceStable_canonical Key _ _ Hperm Hnd).
  - apply SliceStable_ascending.
  - rewrite (SliceStable_perm Key). unfold range_order in Ho1. by rewrite Ho1.
Qed.

(** A call never rewrites the key of a record, frees a record or frees a
    slice. *)
Lemma effect_keeps_keys h h' :
  effect h h' ->
  (length (slices h) <= length (slices h'))%nat
  /\ forall i e, recs h !! i = Some e ->
       exists e', recs h' !! i = Some e' /\ Key e' = Key e.
Proof.
  intros [|k v|c s es k v Hc Hes Hall|j e0 v Hj|c s j x Hc Hx Hj
         |c s es Hc Hes|attrMap order Hord]; cbn [recs slices];
    rewrite ?length_insert, ?length_app; (split; [lia|]); intros i e Hi;
    try (by exists e); try (exists e; split; [by apply lookup_app_l_Some|done]).
  destruct (decide (j = i)) as [->|Hne].
  - rewrite list_lookup_insert_eq by (by eapply lookup_lt_Some).
    eexists. split; [done|]. simpl. congruence.
  - rewrite list_lookup_insert_ne by done. by exists e.
Qed.

(** X14: through any sequence of calls of the exported interface, a record
    stays allocated with the key it has (only its value can change), and no
    slice is freed: a key is set when the pair is created and never
    again. *)
Theorem keys_are_never_rewritten h h' :
  rtc step h h' ->
  (length (slices h) <= length (slices h'))%nat
  /\ forall i e, recs h !! i = Some e ->
       exists e', recs h' !! i = Some e' /\ Key e' = Key e.
Proof.
  induction 1 as [h|h1 h2 h3 Hstep _ IH].
  - split; [done|]. intros i e Hi. by exists e.
  - destruct (effect_keeps_keys _ _ (step_effect _ _ Hstep)) as [Hl1 Hk1].
    destruct IH as [Hl2 Hk2]. split; [lia|]. intros i e Hi.
    destruct (Hk1 i e Hi) as (e1 & Hi1 & He1).
    destruct (Hk2 i e1 Hi1) as (e2 & Hi2 & He2).
    exists e2. split; [done|congruence].
Qed.

End StringMapFromGoMap.

(** ** InstrumentationLibrary over a record, and zero-initialized handles *)
Section HandlesMore.
Import otlpcommon.
Context `{VT : ValueTypes}.

(** X15: an [InstrumentationLibrary] made by [newInstrumentationLibrary]
    over a record reads the name and the version of the record; [SetName]
    makes [Name] read the new name and leaves the version and every other
    record, and [SetVersion] likewise for the version. *)
Theorem InstrumentationLibrary_reads_back
    (h : list otlpcommon.InstrumentationLibrary) p r :
  h !! p = Some r ->
  let il := InstrumentationLibrary.newInstrumentationLibrary (Some p) in
  InstrumentationLibrary.Name il h = Ok (Name r) h
  /\ InstrumentationLibrary.Version il h = Ok (Version r) h
  /\ (forall x, exists h',
        InstrumentationLibrary.SetName il x h = Ok tt h'
        /\ InstrumentationLibrary.Name il h' = Ok x h'
        /\ InstrumentationLibrary.Version il h' = Ok (Version r) h'
        /\ forall q, q <> p -> h' !! q = h !! q)
  /\ (forall x, exists h',
        InstrumentationLibrary.SetVersion il x h = Ok tt h'
        /\ InstrumentationLibrary.Version il h' = Ok x h'
        /\ InstrumentationLibrary.Name il h' = Ok (Name r) h'
        /\ forall q, q <> p -> h' !! q = h !! q).
Proof.
  intros Hp. cbv zeta. pose proof (lookup_lt_Some _ _ _ Hp) as Hlt.
  unfold InstrumentationLibrary.Name, InstrumentationLibrary.Version,
    InstrumentationLibrary.SetName, InstrumentationLibrary.SetVersion,
    InstrumentationLibrary.newInstrumentationLibrary, bind,
    InstrumentationLibrary.load, InstrumentationLibrary.store.
  cbn [InstrumentationLibrary.orig]. rewrite Hp.
  split; [done|]. split; [done|].
  split; intros x; eexists; (split; [done|]);
    rewrite list_lookup_insert_eq by done;
    (split; [done|]); (split; [done|]);
    intros q Hq; by apply list_lookup_insert_ne.
Qed.

(** X3: on the zero-initialized [AttributeValue], [StringKeyValue] and
    [StringMap], whose pointer is nil, every method panics, in every
    store. *)
Theorem zero_handles_panic :
  (forall h : list AttributeKeyValue,
     let a := {| AttributeValue.orig := nil |} in
     AttributeValue.Type' a h = Panic /\ AttributeValue.StringVal a h = Panic
     /\ AttributeValue.IntVal a h = Panic /\ AttributeValue.DoubleVal a h = Panic
     /\ AttributeValue.BoolVal a h = Panic
     /\ (forall v, AttributeValue.SetString a v h = Panic)
     /\ (forall v, AttributeValue.SetInt a v h = Panic)
     /\ (forall v, AttributeValue.SetDouble a v h = Panic)
     /\ (forall v, AttributeValue.SetBool a v h = Panic))
  /\ (forall h : KV.heap,
     let akv := {| StringKeyValue.orig := nil |} in
     StringKeyValue.Key akv h = Panic /\ StringKeyValue.Value akv h = Panic
     /\ forall v, StringKeyValue.SetValue akv v h = Panic)
  /\ (forall h : KV.heap,
     let sm := {| StringMap.orig := nil |} in
     (forall k, StringMap.Get sm k h = Panic)
     /\ (forall k, StringMap.Delete sm k h = Panic)
     /\ (forall k v, StringMap.Insert sm k v h = Panic)
     /\ (forall k v, StringMap.Update sm k v h = Panic)
     /\ (forall k v, StringMap.Upsert sm k v h = Panic)
     /\ StringMap.Len sm h = Panic
     /\ (forall ix, StringMap.GetStringKeyValue sm ix h = Panic)
     /\ StringMap.Sort sm h = Panic).
Proof. by repeat split. Qed.

End HandlesMore.

(** ** The further properties on examples *)
Section MoreExamples.
Import otlpcommon KV StringMap Examples.

Lemma abc_contents :
  contents abc_store abc_map
  = Some [{| Key := "a"; Value := "1" |}; {| Key := "b"; Value := "2" |};
          {| Key := "c"; Value := "3" |}].
Proof. reflexivity. Defined.

Lemma Get_example :
  Get abc_map "z" abc_store = Ok ({| StringKeyValue.orig := nil |}, false) abc_store.
Proof.
  apply (proj2 (Get_finds_first_pair abc_store abc_map _ "z" abc_contents)).
  apply (bool_decide_unpack _). by vm_compute.
Defined.

Lemma Len_example :
  Len abc_map abc_store = Ok 3 abc_store
  /\ GetStringKeyValue abc_map 3 abc_store = Panic.
Proof.
  destruct (Len_and_GetStringKeyValue abc_store abc_map _ abc_contents)
    as (HL & _ & HP).
  split; [exact HL|]. apply HP. right. simpl. lia.
Defined.

Lemma xy_range_order : range_order xy_attrMap [("x", "1"); ("y", "2")]%string.
Proof. unfold range_order. vm_compute. apply Permutation_swap. Defined.

Lemma yx_range_order : range_order xy_attrMap [("y", "2"); ("x", "1")]%string.
Proof. unfold range_order. by vm_compute. Defined.

Lemma NewStringMap_lookup_example :
  exists sm h',
    NewStringMap xy_attrMap [("x", "1"); ("y", "2")]%string KV.empty = Ok sm h'
    /\ Len sm h' = Ok 2 h'
    /\ exists a, Get sm "y" h' = Ok (a, true) h'
         /\ StringKeyValue.Value a h' = Ok "2"%string h'.
Proof.
  destruct (NewStringMap_lookup xy_attrMap _ KV.empty xy_range_order)
    as (sm & h' & HN & HL & HG).
  exists sm, h'. split; [exact HN|]. split; [exact HL|].
  specialize (HG "y"%string). change (xy_attrMap !! "y"%string) with (Some "2"%string) in HG.
  destruct HG as (a & HG & _ & HV). exists a. by split.
Defined.

Lemma writes_example :
  exists x,
    Get abc_map "a" abc_store = Ok x abc_store
    /\ exists h', Upsert abc_map "b" "9" abc_store = Ok tt h'
         /\ Get abc_map "a" h' = Ok x h'.
Proof.
  assert (Hne : "a"%string <> "b"%string) by discriminate.
  destruct (writes_leave_other_keys abc_store abc_map _ "b" "a" "9"
              abc_contents Hne) as (x & HG & _ & _ & HU).
  exists x. by split.
Defined.

Lemma abc_unique_keys : unique_keys abc_store abc_map.
Proof.
  eexists. split; [exact abc_contents|].
  apply (bool_decide_unpack _). by vm_compute.
Defined.

Lemma Delete_frame_example :
  exists x b h',
    Get abc_map "c" abc_store = Ok x abc_store
    /\ Delete abc_map "a" abc_store = Ok b h'
    /\ Get abc_map "c" h' = Ok x h'.
Proof.
  assert (Hne : "c"%string <> "a"%string) by discriminate.
  exact (Delete_leaves_other_keys abc_store abc_map "a" "c" abc_unique_keys Hne).
Defined.

Lemma Insert_Delete_example :
  exists h1 h2,
    Insert abc_map "z" "0" abc_store = Ok tt h1
    /\ Delete abc_map "z" h1 = Ok true h2
    /\ slices h2 = slices abc_store.
Proof.
  assert (Hz : "z"%string ∉ Key <$> [{| Key := "a"; Value := "1" |};
                {| Key := "b"; Value := "2" |}; {| Key := "c"; Value := "3" |}]).
  { apply (bool_decide_unpack _). by vm_compute. }
  destruct (Insert_then_Delete_restores abc_store abc_map _ "z" "0"
              abc_contents Hz) as (h1 & h2 & HI & HD & Hs & _).
  exists h1, h2. by repeat split.
Defined.

Lemma Sort_lookup_example :
  exists h', Sort abc_map abc_store = Ok abc_map h'
    /\ Len abc_map h' = Ok 3 h'.
Proof.
  destruct (Sort_leaves_lookups abc_store abc_map _ abc_contents)
    as (h' & HS & HL & _).
  exists h'. by split.
Defined.

Lemma NewStringMap_Sort_example :
  exists sm1 sm2 h' es,
    (m1 <- NewStringMap xy_attrMap [("x", "1"); ("y", "2")]%string ;;
     m2 <- NewStringMap xy_attrMap [("y", "2"); ("x", "1")]%string ;;
     Sort m1 ;;;
     Sort m2 ;;;
     ret (m1, m2)) KV.empty = Ok (sm1, sm2) h'
    /\ contents h' sm1 = Some es /\ contents h' sm2 = Some es.
Proof.
  destruct (NewStringMap_Sort_canonical xy_attrMap _ _ KV.empty
              xy_range_order yx_range_order)
    as (sm1 & sm2 & h' & es & Hrun & _ & Hc1 & Hc2 & _).
  exists sm1, sm2, h', es. by repeat split.
Defined.

Lemma keys_example :
  rtc step abc_store
    {| recs := [{| Key := "a"; Value := "1" |}; {| Key := "b"; Value := "9" |};
                {| Key := "c"; Value := "3" |}];
       slices := slices abc_store |}
  /\ exists e', [{| Key := "a"; Value := "1" |}; {| Key := "b"; Value := "9" |};
                 {| Key := "c"; Value := "3" |}] !! 1%nat = Some e'
       /\ Key e' = "b"%string.
Proof.
  assert (Hr : rtc step abc_store
    {| recs := [{| Key := "a"; Value := "1" |}; {| Key := "b"; Value := "9" |};
                {| Key := "c"; Value := "3" |}];
       slices := slices abc_store |}).
  { apply rtc_once. by apply (step_Update _ _ abc_map "b" "9"). }
  split; [exact Hr|].
  exact (proj2 (keys_are_never_rewritten _ _ Hr) 1%nat
           {| Key := "b"; Value := "2" |} eq_refl).
Defined.

Lemma InstrumentationLibrary_example :
  let h := [{| Name := "lib"; Version := "1" |}] in
  let il := InstrumentationLibrary.newInstrumentationLibrary (Some 0%nat) in
  h !! 0%nat = Some {| Name := "lib"; Version := "1" |}
  /\ InstrumentationLibrary.Name il h = Ok "lib"%string h.
Proof.
  cbv zeta. split; [reflexivity|].
  exact (proj1 (InstrumentationLibrary_reads_back
                  [{| Name := "lib"; Version := "1" |}] 0%nat _ eq_refl)).
Defined.

End MoreExamples.
